(** * pipeline-monitor: the concurrent health-check engine

    A shallow embedding of [internal/infrastructure/monitor/monitor.go]
    (with the parts of [internal/domain/service] and
    [internal/handlers/handlers.go] it touches) and the properties of the
    engine that the specification states.

    The sequential functions ([performHealthCheck], [handleUpdate],
    [checkAllServices], [Start]) are functions on the monitor's state.
    Goroutines are run by an interleaving step function [step] over a
    [System]: the monitor struct, the goroutines with their program
    points, the application thread that calls [Start] and [Stop], and the
    trace of what the engine did to the outside world.  Whatever the
    engine cannot decide itself (what a listing returns, how a request
    ends, which ready case a [select] takes, when a timer fires) is carried
    by the label of the step. *)

From Stdlib Require Import ZArith String Ascii List Lia Bool.
From stdpp Require Import base option list gmap strings.
Import ListNotations.
Local Open Scope string_scope.
Local Open Scope list_scope.
Local Open Scope Z_scope.

(** ** Errors and contexts (Go's [error], [context.Context]) *)

(** An [error] value: one produced by a library, or one built by
    [fmt.Errorf] around a cause ([%w]) or around an integer ([%d]). *)
Inductive error : Type :=
| errors_New (msg : string)
| fmt_Errorf_w (format : string) (cause : error)
| fmt_Errorf_d (format : string) (n : Z).

(** What [ctx.Err()] returns once a context is done. *)
Inductive ctxErr : Type := Canceled | DeadlineExceeded.

#[global] Instance ctxErr_eq_dec : EqDecision ctxErr.
Proof. solve_decision. Defined.

(** A context is represented by the value of its [Err()]: [None] while
    it is live.  The first cause wins: a done context never changes. *)
Definition Context := option ctxErr.

Definition ctx_finish (cause : ctxErr) (ctx : Context) : Context :=
  match ctx with
  | None => Some cause
  | Some e => Some e
  end.

Definition ctx_done (ctx : Context) : bool :=
  match ctx with Some _ => true | None => false end.

(** ** package service *)

Module service.

Definition Status := string.

Definition StatusHealthy : Status := "healthy".
Definition StatusUnhealthy : Status := "unhealthy".
Definition StatusUnknown : Status := "unknown".
Definition StatusTimeout : Status := "timeout".

Definition String (s : Status) : string := s.

Definition IsHealthy (s : Status) : bool := String.eqb s StatusHealthy.

Record Service := {
  ID : string;
  Name : string;
  URL : string;
  Status_ : Status;
  LastCheck : Z;
  ResponseTime : Z;
  CreatedAt : Z;
  UpdatedAt : Z;
  Description : string;
  Tags : list string
}.

End service.

(** ** package monitor: data *)

Record ServiceUpdate := {
  ServiceID : string;
  Status : service.Status;
  ResponseTime : Z;
  Timestamp : Z;
  Error : option error
}.

(** The lines the engine writes with [log.Println] and [log.Printf]. *)
Inductive LogLine : Type :=
| LogStarting
| LogStopping
| LogStopped
| LogLoopStopping
| LogErrorFetching (err : error)
| LogChecking (n : nat)
| LogChannelFull (id : string)
| LogUpdateFailed (id : string) (err : error)
| LogServiceError (id : string) (st : service.Status) (err : error)
| LogServiceOk (id : string) (st : service.Status) (ms : Z).

(** What the engine does to the world outside it, in the order it does
    it.  The three channel events are ghost records of the operations on
    [m.updates]. *)
Inductive Event : Type :=
| EvLog (line : LogLine)
| EvGetAll
| EvUpdateStatus (id : string) (st : service.Status) (ms : Z)
| EvHttpDo (method url : string)
| EvSend (u : ServiceUpdate)
| EvHandled (u : ServiceUpdate)
| EvSsePing
| EvSseWrite (u : ServiceUpdate).

(** ** performHealthCheck *)

(** The response of [m.client.Do]: only its status code is read. *)
Record Response := { StatusCode : Z }.

(** [http.NewRequestWithContext(ctx, "GET", url, nil)] fails only when the
    URL does not parse.  The parser belongs to net/url, not to this
    repository: its verdict is an interface the engine is given, [None]
    for a URL that parses. *)
Class UrlParser := url_parse_error : string -> option error.

Section Engine.

Context `{parser : UrlParser}.

(** [do] is what [m.client.Do] returns if it is called and [ctx] is the
    state of the probe's context when that call has returned.  The
    result comes with the calls of [m.client.Do] made. *)
Definition performHealthCheck (do : Response + error) (ctx : Context)
    (url : string) : (service.Status * option error) * list Event :=
  match url_parse_error url with
  | Some err =>
      ((service.StatusUnknown,
        Some (fmt_Errorf_w "failed to create request: %w" err)), [])
  | None =>
      match do with
      | inr err =>
          if decide (ctx = Some DeadlineExceeded)
          then ((service.StatusTimeout,
                 Some (fmt_Errorf_w "request timeout: %w" err)),
                [EvHttpDo "GET" url])
          else ((service.StatusUnhealthy,
                 Some (fmt_Errorf_w "request failed: %w" err)),
                [EvHttpDo "GET" url])
      | inl resp =>
          if (200 <=? StatusCode resp) && (StatusCode resp <? 400)
          then ((service.StatusHealthy, None), [EvHttpDo "GET" url])
          else ((service.StatusUnhealthy,
                 Some (fmt_Errorf_d "unhealthy status code: %d"
                         (StatusCode resp))),
                [EvHttpDo "GET" url])
      end
  end.


(** ** The monitor and its goroutines *)

(** Go's [int64] arithmetic, for [time.Duration]. *)
Definition wrap64 (z : Z) : Z := (z + 2 ^ 63) mod 2 ^ 64 - 2 ^ 63.

(** [make(chan ServiceUpdate, 100)] *)
Definition updates_capacity : nat := 100.

(** The [ServiceMonitor] struct.  The channel [updates] is its buffer,
    oldest outcome first, and a closed flag; [ctx] and [cancel] are the
    root context; [wg] is the counter of the wait group; [activeChecks]
    maps a service ID to a cancel function, named by the goroutine whose
    context it cancels.  [repo] and [client] are the outside world: what
    they answer arrives with the label of a step. *)
Record ServiceMonitor := {
  interval : Z;
  updates : list ServiceUpdate;
  updates_closed : bool;
  ctx : Context;
  wg : Z;
  activeChecks : gmap string nat
}.

Definition New (intervalSeconds : Z) : ServiceMonitor :=
  {| interval := wrap64 (intervalSeconds * 1000000000);
     updates := [];
     updates_closed := false;
     ctx := None;
     wg := 0;
     activeChecks := ∅ |}.

Definition set_updates (v : list ServiceUpdate) (m : ServiceMonitor) :=
  {| interval := interval m; updates := v;
     updates_closed := updates_closed m; ctx := ctx m; wg := wg m;
     activeChecks := activeChecks m |}.

Definition set_updates_closed (v : bool) (m : ServiceMonitor) :=
  {| interval := interval m; updates := updates m;
     updates_closed := v; ctx := ctx m; wg := wg m;
     activeChecks := activeChecks m |}.

Definition set_ctx (v : Context) (m : ServiceMonitor) :=
  {| interval := interval m; updates := updates m;
     updates_closed := updates_closed m; ctx := v; wg := wg m;
     activeChecks := activeChecks m |}.

Definition set_wg (v : Z) (m : ServiceMonitor) :=
  {| interval := interval m; updates := updates m;
     updates_closed := updates_closed m; ctx := ctx m; wg := v;
     activeChecks := activeChecks m |}.

Definition set_activeChecks (v : gmap string nat) (m : ServiceMonitor) :=
  {| interval := interval m; updates := updates m;
     updates_closed := updates_closed m; ctx := ctx m; wg := wg m;
     activeChecks := v |}.

(** Program points.  A goroutine that has returned has also run its
    deferred [m.wg.Done()]. *)
Inductive LoopPc : Type :=
| LoopInitial          (* monitorLoop entered, ticker not yet made *)
| LoopSelect           (* at the select of the for loop *)
| LoopReturned.

Inductive AggPc : Type :=
| AggSelect            (* at the select of processUpdates *)
| AggReturned.

Inductive CheckPc : Type :=
| ChkStart             (* checkService entered *)
| ChkInFlight          (* handle registered, in performHealthCheck *)
| ChkPublish (st : service.Status) (err : option error) (ms : Z)
                       (* at the select that sends the update *)
| ChkDeferDelete       (* deferred: delete(m.activeChecks, svc.ID) *)
| ChkDeferCancel       (* deferred: cancel() *)
| ChkDeferDone         (* deferred: m.wg.Done() *)
| ChkReturned.

Inductive SsePc : Type :=
| SseSelect            (* at the select of ServiceUpdatesSSE *)
| SseReturned.

Inductive Goroutine : Type :=
| GMonitorLoop (pc : LoopPc)
| GProcessUpdates (pc : AggPc)
| GCheckService (svc : service.Service) (checkCtx : Context) (pc : CheckPc)
| GServiceUpdatesSSE (pc : SsePc).

(** The application thread: it calls [Start] (app.New) and later [Stop]
    (app.Shutdown); inside [Stop] it is at one of four points. *)
Inductive AppPc : Type :=
| AppIdle                      (* Stop not called yet *)
| AppStopCancelAll             (* m.cancel() done, before the handle loop *)
| AppStopWait                  (* at m.wg.Wait() *)
| AppStopClose                 (* Wait returned, before close(m.updates) *)
| AppStopReturned (ret : option error).

Record System := {
  mon : ServiceMonitor;
  goroutines : list Goroutine;
  app : AppPc;
  trace : list Event;
  crashed : bool               (* a goroutine panicked: the process is gone *)
}.

Definition set_mon (v : ServiceMonitor) (s : System) :=
  {| mon := v; goroutines := goroutines s; app := app s;
     trace := trace s; crashed := crashed s |}.

Definition set_goroutines (v : list Goroutine) (s : System) :=
  {| mon := mon s; goroutines := v; app := app s;
     trace := trace s; crashed := crashed s |}.

Definition set_app (v : AppPc) (s : System) :=
  {| mon := mon s; goroutines := goroutines s; app := v;
     trace := trace s; crashed := crashed s |}.

Definition emit (evs : list Event) (s : System) :=
  {| mon := mon s; goroutines := goroutines s; app := app s;
     trace := trace s ++ evs; crashed := crashed s |}.

Definition panic (s : System) :=
  {| mon := mon s; goroutines := goroutines s; app := app s;
     trace := trace s; crashed := true |}.

(** [go f(...)]: the new goroutine gets the next free identifier. *)
Definition go (g : Goroutine) (s : System) : System :=
  set_goroutines (goroutines s ++ [g]) s.

Definition wg_Add (n : Z) (s : System) : System :=
  set_mon (set_wg (wg (mon s) + n) (mon s)) s.

(** [m.wg.Done()] panics on a negative counter. *)
Definition wg_Done (s : System) : System :=
  if wg (mon s) - 1 <? 0 then panic s
  else set_mon (set_wg (wg (mon s) - 1) (mon s)) s.

(** Calling the [CancelFunc] of a probe's context. *)
Definition cancel_goroutine (g : Goroutine) : Goroutine :=
  match g with
  | GCheckService svc c pc => GCheckService svc (ctx_finish Canceled c) pc
  | _ => g
  end.

(** [m.cancel()]: the root context is cancelled and with it, before the
    call returns, every context derived from it. *)
Definition cancel_root (s : System) : System :=
  set_goroutines (cancel_goroutine <$> goroutines s)
    (set_mon (set_ctx (ctx_finish Canceled (ctx (mon s))) (mon s)) s).

(** [for _, cancelFunc := range m.activeChecks { cancelFunc() }] *)
Definition cancel_activeChecks (s : System) : System :=
  set_goroutines
    (foldr (fun kv gs => alter cancel_goroutine (snd kv) gs)
       (goroutines s) (map_to_list (activeChecks (mon s))))
    s.

(** ** The Aggregator's handler and the Scheduler's sweep *)

(** [handleUpdate]: [res] is what [m.repo.UpdateStatus] returns.  The
    function touches nothing of the monitor: it writes to the repository
    and to the log. *)
Definition handleUpdate (res : option error) (update : ServiceUpdate)
    : list Event :=
  EvUpdateStatus (ServiceID update) (Status update) (ResponseTime update)
  :: match res with
     | Some err => [EvLog (LogUpdateFailed (ServiceID update) err)]
     | None =>
         match Error update with
         | Some e =>
             [EvLog (LogServiceError (ServiceID update) (Status update) e)]
         | None =>
             [EvLog (LogServiceOk (ServiceID update) (Status update)
                       (ResponseTime update))]
         end
     end.

(** [go m.checkService(svc)]: the goroutine of a new probe. *)
Definition probe_of (svc : service.Service) : Goroutine :=
  GCheckService svc None ChkStart.

(** [checkAllServices]: [res] is what [m.repo.GetAll] returns. *)
Definition checkAllServices (res : list service.Service + error)
    (s : System) : System :=
  match res with
  | inr err => emit [EvGetAll; EvLog (LogErrorFetching err)] s
  | inl services =>
      foldl (fun s svc => go (probe_of svc) (wg_Add 1 s))
        (emit [EvGetAll; EvLog (LogChecking (length services))] s)
        services
  end.

(** [Start]: both goroutines are spawned and [nil] is returned. *)
Definition Start (s : System) : System * option error :=
  let s := emit [EvLog LogStarting] s in
  let s := go (GMonitorLoop LoopInitial) (wg_Add 1 s) in
  let s := go (GProcessUpdates AggSelect) (wg_Add 1 s) in
  (s, None).

(** [Stop], one blocking call, in its four steps. *)
Definition Stop_cancel (s : System) : System :=
  set_app AppStopCancelAll (cancel_root (emit [EvLog LogStopping] s)).

Definition Stop_cancelAll (s : System) : System :=
  set_app AppStopWait (cancel_activeChecks s).

(** [m.wg.Wait()] returns when the counter is zero. *)
Definition Stop_wait (s : System) : option System :=
  if wg (mon s) =? 0 then Some (set_app AppStopClose s) else None.

(** [close(m.updates)] panics on a closed channel; then [return nil]. *)
Definition Stop_close (s : System) : System :=
  if updates_closed (mon s) then panic s
  else set_app (AppStopReturned None)
         (emit [EvLog LogStopped]
            (set_mon (set_updates_closed true (mon s)) s)).

(** ** Steps *)

(** The case a [select] with a send takes in [checkService]. *)
Inductive SelectCase : Type := SelSend | SelCtxDone | SelDefault.

(** What one goroutine does in one step, with what the world answers. *)
Inductive Action : Type :=
| ActSweep (res : list service.Service + error)
    (* monitorLoop: the first check, or a tick; GetAll answers res *)
| ActLoopDone                         (* monitorLoop: <-m.ctx.Done() *)
| ActRecv (res : option error)
    (* processUpdates: <-m.updates; UpdateStatus answers res *)
| ActAggDone                          (* processUpdates: <-m.ctx.Done() *)
| ActRegister
| ActHealthCheck (do : Response + error) (elapsed : Z)
| ActPublish (now : Z) (c : SelectCase)
| ActDeferDelete
| ActDeferCancel
| ActDeferDone
| ActDeadline                         (* the probe's 8 s timer fires *)
| ActSseRecv
| ActSseDisconnect.                   (* <-c.Request.Context().Done() *)

Inductive Label : Type :=
| LStart
| LStopCancel
| LStopCancelAll
| LStopWait
| LStopClose
| LSubscribe                          (* a client opens the SSE route *)
| LGo (i : nat) (a : Action).

Definition set_goroutine (i : nat) (g : Goroutine) (s : System) : System :=
  set_goroutines (<[i := g]> (goroutines s)) s.

(** [monitorLoop]: goroutine [i] is at [pc] and does [a]. *)
Definition step_monitorLoop (i : nat) (pc : LoopPc) (a : Action)
    (s : System) : option System :=
  match pc, a with
  | LoopInitial, ActSweep res =>
      (* time.NewTicker panics unless the interval is positive *)
      if interval (mon s) <=? 0 then Some (panic s)
      else Some (checkAllServices res
                   (set_goroutine i (GMonitorLoop LoopSelect) s))
  | LoopSelect, ActSweep res => Some (checkAllServices res s)
  | LoopSelect, ActLoopDone =>
      if ctx_done (ctx (mon s))
      then Some (wg_Done (set_goroutine i (GMonitorLoop LoopReturned)
                            (emit [EvLog LogLoopStopping] s)))
      else None
  | _, _ => None
  end.

(** [processUpdates]; a receive and the [handleUpdate] that follows it
    are one step. *)
Definition step_processUpdates (i : nat) (pc : AggPc) (a : Action)
    (s : System) : option System :=
  match pc, a with
  | AggSelect, ActRecv res =>
      match updates (mon s) with
      | update :: rest =>
          Some (emit (EvHandled update :: handleUpdate res update)
                  (set_mon (set_updates rest (mon s)) s))
      | [] =>
          if updates_closed (mon s)
          then Some (wg_Done (set_goroutine i (GProcessUpdates AggReturned) s))
          else None
      end
  | AggSelect, ActAggDone =>
      if ctx_done (ctx (mon s))
      then Some (wg_Done (set_goroutine i (GProcessUpdates AggReturned) s))
      else None
  | _, _ => None
  end.

(** A send on [m.updates] can proceed. *)
Definition channel_has_room (m : ServiceMonitor) : bool :=
  (length (updates m) <? updates_capacity)%nat.

(** [checkService]: making the context and registering its cancel
    function are one step; so is [performHealthCheck], whose context is
    read as it is when [Do] has returned; the deferred calls run last
    registered first: the delete, [cancel()], [m.wg.Done()]. *)
Definition step_checkService (i : nat) (svc : service.Service)
    (checkCtx : Context) (pc : CheckPc) (a : Action) (s : System)
    : option System :=
  match pc, a with
  | ChkStart, ActRegister =>
      Some (set_mon (set_activeChecks
                       (<[service.ID svc := i]> (activeChecks (mon s)))
                       (mon s))
              (set_goroutine i (GCheckService svc (ctx (mon s)) ChkInFlight)
                 s))
  | ChkInFlight, ActHealthCheck do elapsed =>
      let '((status, err), evs) :=
        performHealthCheck do checkCtx (service.URL svc) in
      Some (emit evs
              (set_goroutine i
                 (GCheckService svc checkCtx (ChkPublish status err elapsed))
                 s))
  | ChkPublish status err responseTime, ActPublish now c =>
      let update := {| ServiceID := service.ID svc; Status := status;
                       ResponseTime := responseTime; Timestamp := now;
                       Error := err |} in
      let next := set_goroutine i (GCheckService svc checkCtx ChkDeferDelete)
      in
      match c with
      | SelSend =>
          if updates_closed (mon s) then Some (panic s)
          else if channel_has_room (mon s)
          then Some (emit [EvSend update]
                       (set_mon (set_updates (updates (mon s) ++ [update])
                                   (mon s))
                          (next s)))
          else None
      | SelCtxDone =>
          if ctx_done (ctx (mon s)) then Some (next s) else None
      | SelDefault =>
          if updates_closed (mon s) || channel_has_room (mon s)
             || ctx_done (ctx (mon s))
          then None
          else Some (emit [EvLog (LogChannelFull (service.ID svc))] (next s))
      end
  | ChkDeferDelete, ActDeferDelete =>
      Some (set_mon (set_activeChecks
                       (delete (service.ID svc) (activeChecks (mon s)))
                       (mon s))
              (set_goroutine i (GCheckService svc checkCtx ChkDeferCancel) s))
  | ChkDeferCancel, ActDeferCancel =>
      Some (set_goroutine i
              (GCheckService svc (ctx_finish Canceled checkCtx) ChkDeferDone)
              s)
  | ChkDeferDone, ActDeferDone =>
      Some (wg_Done (set_goroutine i (GCheckService svc checkCtx ChkReturned)
                       s))
  | (ChkInFlight | ChkPublish _ _ _ | ChkDeferDelete | ChkDeferCancel),
    ActDeadline =>
      Some (set_goroutine i
              (GCheckService svc (ctx_finish DeadlineExceeded checkCtx) pc) s)
  | _, _ => None
  end.

(** [GetUpdates] returns [m.updates], the channel itself: whoever receives
    from what it returns takes outcomes out of the monitor's channel. *)
Definition GetUpdates (m : ServiceMonitor) : list ServiceUpdate * bool :=
  (updates m, updates_closed m).

(** handlers.ServiceUpdatesSSE, after its ping: [updates] is
    [h.monitor.GetUpdates()]. *)
Definition step_ServiceUpdatesSSE (i : nat) (pc : SsePc) (a : Action)
    (s : System) : option System :=
  match pc, a with
  | SseSelect, ActSseRecv =>
      match fst (GetUpdates (mon s)) with
      | update :: rest =>
          Some (emit [EvSseWrite update]
                  (set_mon (set_updates rest (mon s)) s))
      | [] =>
          if snd (GetUpdates (mon s))
          then Some (set_goroutine i (GServiceUpdatesSSE SseReturned) s)
          else None
      end
  | SseSelect, ActSseDisconnect =>
      Some (set_goroutine i (GServiceUpdatesSSE SseReturned) s)
  | _, _ => None
  end.

(** One step of the system.  [None]: the label is not enabled (the
    goroutine is blocked, or is not at that point).  A crashed system
    takes no step. *)
Definition step (l : Label) (s : System) : option System :=
  if crashed s then None
  else
    match l with
    | LStart =>
        match app s with
        | AppIdle =>
            match Start s with
            | (s', None) => Some s'
            | (s', Some _) => Some (panic s')   (* app.New: log.Fatal *)
            end
        | _ => None
        end
    | LStopCancel =>
        match app s with AppIdle => Some (Stop_cancel s) | _ => None end
    | LStopCancelAll =>
        match app s with
        | AppStopCancelAll => Some (Stop_cancelAll s)
        | _ => None
        end
    | LStopWait =>
        match app s with AppStopWait => Stop_wait s | _ => None end
    | LStopClose =>
        match app s with AppStopClose => Some (Stop_close s) | _ => None end
    | LSubscribe =>
        Some (emit [EvSsePing] (go (GServiceUpdatesSSE SseSelect) s))
    | LGo i a =>
        match goroutines s !! i with
        | Some (GMonitorLoop pc) => step_monitorLoop i pc a s
        | Some (GProcessUpdates pc) => step_processUpdates i pc a s
        | Some (GCheckService svc c pc) => step_checkService i svc c pc a s
        | Some (GServiceUpdatesSSE pc) => step_ServiceUpdatesSSE i pc a s
        | None => None
        end
    end.

(** Running a schedule. *)
Fixpoint run (ls : list Label) (s : System) : option System :=
  match ls with
  | [] => Some s
  | l :: ls' =>
      match step l s with
      | Some s' => run ls' s'
      | None => None
      end
  end.

(** The system that app.New builds, before it calls [Start]. *)
Definition init (intervalSeconds : Z) : System :=
  {| mon := New intervalSeconds; goroutines := []; app := AppIdle;
     trace := []; crashed := false |}.

Inductive reachable : System -> Prop :=
| reachable_init intervalSeconds : reachable (init intervalSeconds)
| reachable_step s l s' :
    reachable s -> step l s = Some s' -> reachable s'.

(** ** What the properties are stated with *)

(** A goroutine counted by [m.wg] that has not yet called [m.wg.Done()].
    The SSE handlers are goroutines of the HTTP server: never counted. *)
Definition pending (g : Goroutine) : bool :=
  match g with
  | GMonitorLoop LoopReturned => false
  | GMonitorLoop _ => true
  | GProcessUpdates AggReturned => false
  | GProcessUpdates _ => true
  | GCheckService _ _ ChkReturned => false
  | GCheckService _ _ _ => true
  | GServiceUpdatesSSE _ => false
  end.

Fixpoint pending_count (gs : list Goroutine) : Z :=
  match gs with
  | [] => 0
  | g :: gs' => (if pending g then 1 else 0) + pending_count gs'
  end.

(** The program points at which a probe's handle may be in
    [m.activeChecks]: after its registration, up to its deferred delete. *)
Definition holds_handle (pc : CheckPc) : bool :=
  match pc with
  | ChkInFlight | ChkPublish _ _ _ | ChkDeferDelete => true
  | _ => false
  end.

(** The program points after the deferred delete. *)
Definition past_delete (pc : CheckPc) : bool :=
  match pc with
  | ChkDeferCancel | ChkDeferDone | ChkReturned => true
  | _ => false
  end.

(** The outcomes put into the channel, and the outcomes taken out of it
    by any receiver, in order. *)
Definition sent (e : Event) : option ServiceUpdate :=
  match e with EvSend u => Some u | _ => None end.

Definition received (e : Event) : option ServiceUpdate :=
  match e with
  | EvHandled u => Some u
  | EvSseWrite u => Some u
  | _ => None
  end.

(** The outcomes the Aggregator took, and those a subscriber's handler
    took and wrote to its client. *)
Definition handled (e : Event) : option ServiceUpdate :=
  match e with EvHandled u => Some u | _ => None end.

Definition delivered (e : Event) : option ServiceUpdate :=
  match e with EvSseWrite u => Some u | _ => None end.

(** Who took the k-th outcome that left the channel. *)
Inductive Receiver : Type := ByAggregator | BySubscriber.

Definition receiver (e : Event) : option Receiver :=
  match e with
  | EvHandled _ => Some ByAggregator
  | EvSseWrite _ => Some BySubscriber
  | _ => None
  end.

Definition stop_past_wait (a : AppPc) : bool :=
  match a with
  | AppStopClose | AppStopReturned _ => true
  | _ => false
  end.

Definition stop_called (a : AppPc) : bool :=
  match a with AppIdle => false | _ => true end.

(** How many steps a goroutine is from having returned, at best. *)
Definition rank (g : Goroutine) : nat :=
  match g with
  | GMonitorLoop LoopInitial => 2
  | GMonitorLoop LoopSelect => 1
  | GMonitorLoop LoopReturned => 0
  | GProcessUpdates AggSelect => 1
  | GProcessUpdates AggReturned => 0
  | GCheckService _ _ ChkStart => 6
  | GCheckService _ _ ChkInFlight => 5
  | GCheckService _ _ (ChkPublish _ _ _) => 4
  | GCheckService _ _ ChkDeferDelete => 3
  | GCheckService _ _ ChkDeferCancel => 2
  | GCheckService _ _ ChkDeferDone => 1
  | GCheckService _ _ ChkReturned => 0
  | GServiceUpdatesSSE _ => 0
  end.

Fixpoint total_rank (gs : list Goroutine) : nat :=
  match gs with
  | [] => 0
  | g :: gs' => rank g + total_rank gs'
  end.

(** The probes a sweep launches: the goroutines it adds. *)
Definition launched (before after : System) : list Goroutine :=
  drop (length (goroutines before)) (goroutines after).

End Engine.

(** The key under which a goroutine's handle may be registered. *)
Definition handle_key (g : Goroutine) : option string :=
  match g with
  | GCheckService svc _ pc =>
      if holds_handle pc then Some (service.ID svc) else None
  | _ => None
  end.

Definition registered (gs : list Goroutine) (h : nat) (id : string) : Prop :=
  exists g, gs !! h = Some g /\ handle_key g = Some id.

(** A probe whose context exists sees the cancellation of the root. *)
Definition cascaded (root : Context) (g : Goroutine) : Prop :=
  match g with
  | GCheckService _ c pc =>
      root = Some Canceled -> pc <> ChkStart -> ctx_done c = true
  | _ => True
  end.

(** What holds in every state the engine can reach. *)
Record Inv (s : System) : Prop := {
  (* the wait group counts the goroutines that have yet to call Done *)
  inv_wg : wg (mon s) = pending_count (goroutines s);
  (* the root context is only ever cancelled, and is once Stop is called *)
  inv_root_err : ctx (mon s) <> Some DeadlineExceeded;
  inv_root : stop_called (app s) = true -> ctx (mon s) = Some Canceled;
  inv_root_live : stop_called (app s) = false -> ctx (mon s) = None;
  (* cancelling the root cancels every context derived from it *)
  inv_cascade : Forall (cascaded (ctx (mon s))) (goroutines s);
  (* once Wait has returned nothing waited for is left *)
  inv_waited :
    stop_past_wait (app s) = true -> pending_count (goroutines s) = 0;
  (* the channel is closed by Stop's last statement and by nothing else *)
  inv_closed : updates_closed (mon s) = true <-> app s = AppStopReturned None;
  inv_returned : forall r, app s = AppStopReturned r -> r = None;
  (* a registered handle belongs to a probe between its registration
     and its deferred delete, under that probe's service ID *)
  inv_registry :
    forall id h,
      activeChecks (mon s) !! id = Some h -> registered (goroutines s) h id;
  (* what was sent is what was received followed by what is buffered *)
  inv_channel :
    omap sent (trace s) = omap received (trace s) ++ updates (mon s);
  (* the only panic is time.NewTicker's *)
  inv_crashed : crashed s = true -> interval (mon s) <= 0
}.

(** ** Concrete inputs *)

(** The URL parser used where a concrete run is shown: [Parse] of Go's
    net/url, as far as it decides whether a URL is accepted.  The checks
    come in the library's order: control characters, the scheme, the first
    path segment, the authority (user information, host, port), the
    escapes of path and fragment.  An error is the library's cause, its
    message without the operand it quotes; a host in brackets is checked
    for its brackets, port and escapes only. *)
Module url.

Definition between (lo hi c : ascii) : bool :=
  ((N_of_ascii lo <=? N_of_ascii c) && (N_of_ascii c <=? N_of_ascii hi))%N.

Definition is_letter (c : ascii) : bool :=
  between "a" "z" c || between "A" "Z" c.

Definition is_digit (c : ascii) : bool := between "0" "9" c.

Definition ishex (c : ascii) : bool :=
  is_digit c || between "a" "f" c || between "A" "F" c.

Definition unhex (c : ascii) : N :=
  (if is_digit c then N_of_ascii c - N_of_ascii "0"
   else if between "a" "f" c then N_of_ascii c - N_of_ascii "a" + 10
   else if between "A" "F" c then N_of_ascii c - N_of_ascii "A" + 10
   else 0)%N.

Fixpoint one_of (set : string) (c : ascii) : bool :=
  match set with
  | EmptyString => false
  | String x rest => Ascii.eqb c x || one_of rest c
  end.

Fixpoint all_bytes (p : ascii -> bool) (s : string) : bool :=
  match s with
  | EmptyString => true
  | String c rest => p c && all_bytes p rest
  end.

Fixpoint Cut (sep : ascii) (s : string) : string * option string :=
  match s with
  | EmptyString => (EmptyString, None)
  | String c rest =>
      if Ascii.eqb c sep then (EmptyString, Some rest)
      else let '(before, after) := Cut sep rest in (String c before, after)
  end.

Fixpoint LastCut (sep : ascii) (s : string) : option (string * string) :=
  match s with
  | EmptyString => None
  | String c rest =>
      match LastCut sep rest with
      | Some (before, after) => Some (String c before, after)
      | None => if Ascii.eqb c sep then Some (EmptyString, rest) else None
      end
  end.

Definition stringContainsCTLByte (s : string) : bool :=
  negb (all_bytes (fun c => negb ((N_of_ascii c <? 32) || (N_of_ascii c =? 127))%N) s).

Inductive Scheme : Type :=
| SchemeMissing
| SchemeNone
| SchemeIs (scheme rest : string).

Fixpoint getScheme_from (first : bool) (s : string) : Scheme :=
  match s with
  | EmptyString => SchemeNone
  | String c rest =>
      if is_letter c then
        match getScheme_from false rest with
        | SchemeIs scheme rest' => SchemeIs (String c scheme) rest'
        | r => r
        end
      else if is_digit c || one_of "+-." c then
        if first then SchemeNone
        else match getScheme_from false rest with
             | SchemeIs scheme rest' => SchemeIs (String c scheme) rest'
             | r => r
             end
      else if Ascii.eqb c ":" then
        if first then SchemeMissing else SchemeIs EmptyString rest
      else SchemeNone
  end.

Definition getScheme (rawURL : string) : Scheme := getScheme_from true rawURL.

Inductive encoding : Type :=
| encodePath | encodeHost | encodeZone | encodeUserPassword | encodeFragment.

Definition shouldEscape_host (c : ascii) : bool :=
  negb (is_letter c || is_digit c
        || one_of "!$&'()*+,;=:[]<>" c || Ascii.eqb c "034"
        || one_of "-_.~" c).

Definition is_host (mode : encoding) : bool :=
  match mode with encodeHost => true | _ => false end.

Definition is_zone (mode : encoding) : bool :=
  match mode with encodeZone => true | _ => false end.

Fixpoint unescape (mode : encoding) (s : string) : option error :=
  match s with
  | EmptyString => None
  | String c rest =>
      if Ascii.eqb c "%" then
        match rest with
        | String a (String b rest') =>
            if negb (ishex a && ishex b)
            then Some (errors_New "invalid URL escape")
            else if is_host mode && (unhex a <? 8)%N
                    && negb (Ascii.eqb a "2" && Ascii.eqb b "5")
            then Some (errors_New "invalid URL escape")
            else if is_zone mode
                    && negb (Ascii.eqb a "2" && Ascii.eqb b "5")
                    && negb (16 * unhex a + unhex b =? 32)%N
                    && shouldEscape_host (ascii_of_N (16 * unhex a + unhex b))
            then Some (errors_New "invalid URL escape")
            else unescape mode rest'
        | _ => Some (errors_New "invalid URL escape")
        end
      else if (is_host mode || is_zone mode) && (N_of_ascii c <? 128)%N
              && shouldEscape_host c
      then Some (errors_New "invalid character in host name")
      else unescape mode rest
  end.

Definition validOptionalPort (port : string) : bool :=
  match port with
  | EmptyString => true
  | String c digits => Ascii.eqb c ":" && all_bytes is_digit digits
  end.

Definition validUserinfo (s : string) : bool :=
  all_bytes (fun c => is_letter c || is_digit c
                      || one_of "-._:~!$&'()*+,;=%@" c) s.

Definition or_else (e : option error) (k : option error) : option error :=
  match e with Some err => Some err | None => k end.

(** [strings.Index(s, "%25")]: [s] cut before its first [%25]. *)
Fixpoint cut_zone (s : string) : option (string * string) :=
  match s with
  | EmptyString => None
  | String c rest =>
      if String.prefix "%25" s then Some (EmptyString, s)
      else match cut_zone rest with
           | Some (before, after) => Some (String c before, after)
           | None => None
           end
  end.

Definition parseHost (host : string) : option error :=
  if String.prefix "[" host then
    match LastCut "]" host with
    | None => Some (errors_New "missing ']' in host")
    | Some (literal, colonPort) =>
        if negb (validOptionalPort colonPort)
        then Some (errors_New "invalid port after host")
        else
          match cut_zone literal with
          | Some (host1, host2) =>
              or_else (unescape encodeHost host1)
                (or_else (unescape encodeZone host2)
                   (unescape encodeHost (String "]" colonPort)))
          | None => unescape encodeHost host
          end
    end
  else
    match LastCut ":" host with
    | Some (_, digits) =>
        if negb (validOptionalPort (String ":" digits))
        then Some (errors_New "invalid port after host")
        else unescape encodeHost host
    | None => unescape encodeHost host
    end.

Definition parseAuthority (authority : string) : option error :=
  match LastCut "@" authority with
  | None => parseHost authority
  | Some (userinfo, host) =>
      or_else (parseHost host)
        (if negb (validUserinfo userinfo)
         then Some (errors_New "net/url: invalid userinfo")
         else
           let '(username, password) := Cut ":" userinfo in
           or_else (unescape encodeUserPassword username)
             (match password with
              | Some p => unescape encodeUserPassword p
              | None => None
              end))
  end.

Definition split_authority (rest : string) : string * string :=
  match Cut "/" rest with
  | (authority, Some path) => (authority, String "/" path)
  | (authority, None) => (authority, EmptyString)
  end.

Definition parse_rest (has_scheme : bool) (rest : string) : option error :=
  let rest := fst (Cut "?" rest) in
  if negb (String.prefix "/" rest) && has_scheme then None
  else if negb (String.prefix "/" rest)
          && one_of (fst (Cut "/" rest)) ":"
  then Some (errors_New "first path segment in URL cannot contain colon")
  else if (has_scheme || negb (String.prefix "///" rest))
          && String.prefix "//" rest
  then
    let '(authority, path) :=
      split_authority (String.substring 2 (String.length rest - 2) rest) in
    or_else (parseAuthority authority) (unescape encodePath path)
  else unescape encodePath rest.

Definition parse (rawURL : string) : option error :=
  if stringContainsCTLByte rawURL
  then Some (errors_New "net/url: invalid control character in URL")
  else if String.eqb rawURL "*" then None
  else
    match getScheme rawURL with
    | SchemeMissing => Some (errors_New "missing protocol scheme")
    | SchemeNone => parse_rest false rawURL
    | SchemeIs scheme rest =>
        parse_rest (negb (String.eqb scheme "")) rest
    end.

Definition Parse (rawURL : string) : option error :=
  let '(u, frag) := Cut "#" rawURL in
  or_else (parse u)
    (match frag with
     | Some f => unescape encodeFragment f
     | None => None
     end).

End url.

Definition demo_url_parse_error (url : string) : option error :=
  url.Parse url.

Definition demo_service (id url : string) : service.Service :=
  {| service.ID := id; service.Name := id; service.URL := url;
     service.Status_ := service.StatusUnknown; service.LastCheck := 0;
     service.ResponseTime := 0; service.CreatedAt := 0;
     service.UpdatedAt := 0; service.Description := "";
     service.Tags := [] |}.

Definition demo_update : ServiceUpdate :=
  {| ServiceID := "a"; Status := service.StatusHealthy; ResponseTime := 12;
     Timestamp := 5; Error := None |}.

(** The state a schedule leads to from [init 30] with that parser. *)
Definition demo_run (ls : list Label) : System :=
  default (init 30) (@run demo_url_parse_error ls (init 30)).

(** Start; a first sweep that lists one target; its probe registers and
    gets a 200 after 12 ms. *)
Definition demo_checked : list Label :=
  [LStart;
   LGo 0 (ActSweep (inl [demo_service "a" "http://a"]));
   LGo 2 ActRegister;
   LGo 2 (ActHealthCheck (inl {| StatusCode := 200 |}) 12)].

(** ... and publishes its outcome, [demo_update]. *)
Definition demo_published : list Label :=
  demo_checked ++ [LGo 2 (ActPublish 5 SelSend)].

(** ... then a client subscribes and its handler takes the outcome. *)
Definition demo_subscriber_takes : list Label :=
  demo_published ++ [LSubscribe; LGo 3 ActSseRecv].

(** ... or a client subscribes and the Aggregator takes the outcome, the
    write to the repository failing. *)
Definition demo_write_fails : list Label :=
  demo_published ++
  [LSubscribe; LGo 1 (ActRecv (Some (errors_New "connection refused")))].

(** ... or Stop is called and has cancelled the root context. *)
Definition demo_stop_called : list Label :=
  demo_published ++ [LStopCancel].

(** A sweep lists a target whose URL has no scheme before its colon; its
    probe registers. *)
Definition demo_malformed : list Label :=
  [LStart;
   LGo 0 (ActSweep (inl [demo_service "m" ":foo"]));
   LGo 2 ActRegister].

(** The Aggregator does not get to run: one tick after the other lists
    the target, and each probe gets its 200, publishes and returns.  After
    a hundred of them the channel is full; the next probe has its outcome
    and stands at its select. *)
Definition demo_round (k : nat) : list Label :=
  [LGo 0 (ActSweep (inl [demo_service "a" "http://a"]));
   LGo (2 + k)%nat ActRegister;
   LGo (2 + k)%nat (ActHealthCheck (inl {| StatusCode := 200 |}) 12);
   LGo (2 + k)%nat (ActPublish 5 SelSend);
   LGo (2 + k)%nat ActDeferDelete;
   LGo (2 + k)%nat ActDeferCancel;
   LGo (2 + k)%nat ActDeferDone].

Definition demo_full : list Label :=
  LStart :: flat_map demo_round (seq 0 100) ++
  [LGo 0 (ActSweep (inl [demo_service "a" "http://a"]));
   LGo 102 ActRegister;
   LGo 102 (ActHealthCheck (inl {| StatusCode := 200 |}) 12)].

(** A state no run leads to: the probe of [demo_checked] is registered
    and its context is live, although Stop stands before its loop over the
    registry. *)
Definition demo_uncancelled : System :=
  set_app AppStopCancelAll (demo_run demo_checked).

(** ** Further observations of the engine *)

(** How many goroutines satisfy [f]. *)
Fixpoint tally (f : Goroutine -> bool) (gs : list Goroutine) : Z :=
  match gs with
  | [] => 0
  | g :: gs' => (if f g then 1 else 0) + tally f gs'
  end.

(** The program points after [performHealthCheck] has returned, and those
    after the select that publishes the outcome. *)
Definition past_check (pc : CheckPc) : bool :=
  match pc with
  | ChkStart | ChkInFlight => false
  | _ => true
  end.

Definition past_publish (pc : CheckPc) : bool :=
  match pc with
  | ChkDeferDelete | ChkDeferCancel | ChkDeferDone | ChkReturned => true
  | _ => false
  end.

(** A probe whose health check has returned and whose URL parses: a
    probe whose call of [m.client.Do] has returned. *)
Definition requested `{parser : UrlParser} (g : Goroutine) : bool :=
  match g with
  | GCheckService svc _ pc =>
      past_check pc &&
      match url_parse_error (service.URL svc) with
      | None => true
      | Some _ => false
      end
  | _ => false
  end.

(** A probe that is past its publishing select. *)
Definition published (g : Goroutine) : bool :=
  match g with
  | GCheckService _ _ pc => past_publish pc
  | _ => false
  end.

(** The calls of [m.client.Do] that have returned, with the method and
    the URL of their request, and the calls of [m.repo.UpdateStatus] with
    their arguments, in order.  What a call of [Do] sends over the network
    (one request, or more when it follows redirects) is the client's
    affair and not recorded. *)
Definition client_Do (e : Event) : option (string * string) :=
  match e with EvHttpDo method url => Some (method, url) | _ => None end.

Definition recorded (e : Event) : option (string * service.Status * Z) :=
  match e with
  | EvUpdateStatus id st ms => Some (id, st, ms)
  | _ => None
  end.

Definition record_of (u : ServiceUpdate) : string * service.Status * Z :=
  (ServiceID u, Status u, ResponseTime u).

(** A status with its error as [performHealthCheck] pairs them. *)
Definition well_formed (st : service.Status) (err : option error) : Prop :=
  (st = service.StatusHealthy /\ err = None) \/
  ((st = service.StatusUnhealthy \/ st = service.StatusTimeout \/
    st = service.StatusUnknown) /\ err <> None).

Definition well_formed_update (u : ServiceUpdate) : Prop :=
  well_formed (Status u) (Error u).

Definition well_formed_goroutine (g : Goroutine) : Prop :=
  match g with
  | GCheckService _ _ (ChkPublish st err _) => well_formed st err
  | _ => True
  end.

(** What the monitor itself does to the world, as opposed to what the
    SSE handlers of the HTTP server do. *)
Definition monitor_event (e : Event) : bool :=
  match e with
  | EvSsePing | EvSseWrite _ => false
  | _ => true
  end.

(** What holds besides [Inv] in every state the engine can reach. *)
Record Inv2 `{parser : UrlParser} (s : System) : Prop := {
  (* the buffer never exceeds the capacity of the channel *)
  inv_capacity : (length (updates (mon s)) <= updates_capacity)%nat;
  (* one call of Do per probe that got as far as Do *)
  inv_requests :
    Z.of_nat (length (omap client_Do (trace s))) =
      tally requested (goroutines s);
  (* at most one outcome per probe *)
  inv_sends :
    Z.of_nat (length (omap sent (trace s))) <= tally published (goroutines s);
  (* UpdateStatus is called for the outcomes handled, and for nothing else *)
  inv_recorded : omap recorded (trace s) = record_of <$> omap handled (trace s);
  (* statuses and errors go together *)
  inv_outcomes : Forall well_formed_update (omap sent (trace s));
  inv_publishing : Forall well_formed_goroutine (goroutines s)
}.

(** ** handlers.getStatusCounts *)

(** The map literal [getStatusCounts] starts from. *)
Definition initial_counts : gmap string Z :=
  <["healthy" := 0]> (<["unhealthy" := 0]> (<["timeout" := 0]>
    (<["unknown" := 0]> ∅))).

(** [counts[string(svc.Status)]++]: a missing key reads as 0; [int] is
    64 bits wide. *)
Definition count_status (counts : gmap string Z) (svc : service.Service)
    : gmap string Z :=
  let key : string := service.String (service.Status_ svc) in
  <[key := wrap64 (default 0 (counts !! key) + 1)]> counts.

(** [getStatusCounts]: [res] is what [h.serviceRepo.GetAll] returns. *)
Definition getStatusCounts (res : list service.Service + error)
    : option (gmap string Z) * option error :=
  match res with
  | inr err => (None, Some err)
  | inl services => (Some (foldl count_status initial_counts services), None)
  end.

(** How many of the services have status [k]. *)
Fixpoint status_count (k : string) (services : list service.Service) : Z :=
  match services with
  | [] => 0
  | svc :: rest =>
      (if String.eqb (service.Status_ svc) k then 1 else 0)
      + status_count k rest
  end.

Definition known_status (st : string) : Prop :=
  st = service.StatusHealthy \/ st = service.StatusUnhealthy \/
  st = service.StatusTimeout \/ st = service.StatusUnknown.

(** ** app.loadTemplates: the template function statusClass *)

Definition statusClass (status : string) : string :=
  if String.eqb status "healthy" then "status-healthy"
  else if String.eqb status "unhealthy" then "status-unhealthy"
  else if String.eqb status "timeout" then "status-timeout"
  else "status-unknown".

(** ** Further concrete inputs *)

(** Two sweeps list the same target before the first probe has finished:
    both probes register under the one ID, the second over the first;
    the first probe runs up to its deferred delete. *)
Definition demo_overlap : list Label :=
  [LStart;
   LGo 0 (ActSweep (inl [demo_service "a" "http://a"]));
   LGo 2 ActRegister;
   LGo 0 (ActSweep (inl [demo_service "a" "http://a"]));
   LGo 3 ActRegister;
   LGo 2 (ActHealthCheck (inl {| StatusCode := 200 |}) 12);
   LGo 2 (ActPublish 5 SelSend)].

(** Stop has returned while a subscriber is still connected. *)
Definition demo_stopped : list Label :=
  demo_published ++
  [LSubscribe; LStopCancel; LStopCancelAll; LGo 0 ActLoopDone;
   LGo 1 ActAggDone; LGo 2 ActDeferDelete; LGo 2 ActDeferCancel;
   LGo 2 ActDeferDone; LStopWait; LStopClose].

(** * Properties *)

Section Properties.

Context `{parser : UrlParser}.

(** ** Counting the goroutines the wait group waits for *)

Lemma pending_count_nonneg gs : 0 <= pending_count gs.
Proof. induction gs as [|g gs IH]; simpl; [lia | destruct (pending g); lia]. Qed.

Lemma pending_count_app gs1 gs2 :
  pending_count (gs1 ++ gs2) = pending_count gs1 + pending_count gs2.
Proof. induction gs1 as [|g gs1 IH]; simpl; [reflexivity | rewrite IH; lia]. Qed.

Lemma pending_count_insert gs i g g' :
  gs !! i = Some g ->
  pending_count (<[i := g']> gs) =
    pending_count gs - (if pending g then 1 else 0)
    + (if pending g' then 1 else 0).
Proof.
  revert i. induction gs as [|g0 gs IH]; intros [|i] Hi; simpl in *;
    try discriminate.
  - injection Hi as ->. lia.
  - rewrite (IH i Hi). lia.
Qed.

Lemma pending_count_lookup gs i g :
  gs !! i = Some g -> pending g = true -> 1 <= pending_count gs.
Proof.
  revert i. induction gs as [|g0 gs IH]; intros [|i] Hi Hp; simpl in *;
    try discriminate.
  - injection Hi as ->. rewrite Hp. pose proof (pending_count_nonneg gs). lia.
  - specialize (IH i Hi Hp). destruct (pending g0); lia.
Qed.

Lemma pending_count_zero gs i g :
  pending_count gs = 0 -> gs !! i = Some g -> pending g = false.
Proof.
  intros Hz Hi. destruct (pending g) eqn:Hp; [|reflexivity].
  pose proof (pending_count_lookup _ _ _ Hi Hp). lia.
Qed.

Lemma pending_cancel g : pending (cancel_goroutine g) = pending g.
Proof. destruct g as [| |svc c pc|]; reflexivity. Qed.

Lemma pending_count_fmap_cancel gs :
  pending_count (cancel_goroutine <$> gs) = pending_count gs.
Proof.
  induction gs as [|g gs IH]; [reflexivity|].
  rewrite fmap_cons. cbn [pending_count]. rewrite pending_cancel, IH.
  reflexivity.
Qed.

Lemma pending_count_alter_cancel gs h :
  pending_count (alter cancel_goroutine h gs) = pending_count gs.
Proof.
  unfold alter. revert h.
  induction gs as [|g gs IH]; intros [|h]; simpl; try reflexivity.
  - rewrite pending_cancel. reflexivity.
  - rewrite IH. reflexivity.
Qed.

Lemma pending_count_cancel_handles (kvs : list (string * nat)) gs :
  pending_count
    (foldr (fun kv gs => alter cancel_goroutine (snd kv) gs) gs kvs)
  = pending_count gs.
Proof.
  induction kvs as [|kv kvs IH]; simpl; [reflexivity|].
  rewrite pending_count_alter_cancel. exact IH.
Qed.

(** ** The sweep in closed form *)

Lemma spawn_all_mon services s :
  mon (foldl (fun s svc => go (probe_of svc) (wg_Add 1 s)) s services)
  = set_wg (wg (mon s) + Z.of_nat (length services)) (mon s).
Proof.
  revert s. induction services as [|svc l IH]; intros s.
  - simpl. destruct s as [[] ? ? ? ?]; simpl. unfold set_wg; simpl.
    f_equal. lia.
  - cbn [foldl length]. rewrite IH. destruct s as [[] ? ? ? ?]; simpl.
    unfold set_wg; simpl. f_equal. lia.
Qed.

Lemma spawn_all_goroutines services s :
  goroutines (foldl (fun s svc => go (probe_of svc) (wg_Add 1 s)) s services)
  = goroutines s ++ map probe_of services.
Proof.
  revert s. induction services as [|svc l IH]; intros s.
  - simpl. rewrite app_nil_r. reflexivity.
  - cbn [foldl map]. rewrite IH. simpl. rewrite <- app_assoc. reflexivity.
Qed.

Lemma spawn_all_rest services s :
  let s' := foldl (fun s svc => go (probe_of svc) (wg_Add 1 s)) s services in
  app s' = app s /\ trace s' = trace s /\ crashed s' = crashed s.
Proof.
  revert s. induction services as [|svc l IH]; intros s; [easy|].
  cbn [foldl]. destruct (IH (go (probe_of svc) (wg_Add 1 s))) as (-> & -> & ->).
  easy.
Qed.

Lemma pending_count_probes services :
  pending_count (map probe_of services) = Z.of_nat (length services).
Proof. induction services as [|svc l IH]; simpl in *; lia. Qed.

(** ** The invariant *)

Lemma Inv_init intervalSeconds : Inv (init intervalSeconds).
Proof.
  split; simpl; easy.
Qed.

Ltac step_inversion H :=
  repeat match type of H with
  | None = Some _ => discriminate H
  | Some _ = Some _ => injection H as <-
  | step _ _ = Some _ => unfold step in H
  | Stop_wait _ = Some _ => unfold Stop_wait in H
  | step_monitorLoop _ _ _ _ = Some _ => unfold step_monitorLoop in H
  | step_processUpdates _ _ _ _ = Some _ => unfold step_processUpdates in H
  | step_checkService _ _ _ _ _ _ = Some _ => unfold step_checkService in H
  | step_ServiceUpdatesSSE _ _ _ _ = Some _ =>
      unfold step_ServiceUpdatesSSE, GetUpdates in H; cbn [fst snd] in H
  | context [Start ?s] => unfold Start in H; cbv iota beta zeta in H
  | (let '(_, _) := ?x in _) = Some _ => destruct x as [[? ?] ?] eqn:?
  | (if ?c then _ else _) = Some _ => destruct c eqn:?
  | match ?x with _ => _ end = Some _ => destruct x eqn:?
  end; subst.

Lemma checkAllServices_mon res s :
  mon (checkAllServices res s) =
    match res with
    | inl services =>
        set_wg (wg (mon s) + Z.of_nat (length services)) (mon s)
    | inr _ => mon s
    end.
Proof.
  destruct res as [services|err]; [|reflexivity].
  unfold checkAllServices. rewrite spawn_all_mon. reflexivity.
Qed.

Lemma checkAllServices_goroutines res s :
  goroutines (checkAllServices res s) =
    goroutines s ++
    match res with inl services => map probe_of services | inr _ => [] end.
Proof.
  destruct res as [services|err]; simpl; [|rewrite app_nil_r; reflexivity].
  rewrite spawn_all_goroutines. reflexivity.
Qed.

Lemma checkAllServices_app res s : app (checkAllServices res s) = app s.
Proof.
  destruct res as [services|err]; [|reflexivity].
  unfold checkAllServices.
  destruct (spawn_all_rest services
              (emit [EvGetAll; EvLog (LogChecking (length services))] s))
    as (-> & _). reflexivity.
Qed.

Lemma checkAllServices_trace res s :
  trace (checkAllServices res s) =
    trace s ++
    [EvGetAll;
     EvLog match res with
           | inl services => LogChecking (length services)
           | inr err => LogErrorFetching err
           end].
Proof.
  destruct res as [services|err]; [|reflexivity].
  unfold checkAllServices.
  destruct (spawn_all_rest services
              (emit [EvGetAll; EvLog (LogChecking (length services))] s))
    as (_ & -> & _). reflexivity.
Qed.

Lemma checkAllServices_crashed res s :
  crashed (checkAllServices res s) = crashed s.
Proof.
  destruct res as [services|err]; [|reflexivity].
  unfold checkAllServices.
  destruct (spawn_all_rest services
              (emit [EvGetAll; EvLog (LogChecking (length services))] s))
    as (_ & _ & ->). reflexivity.
Qed.

Lemma wg_Done_cases s :
  (wg (mon s) <= 0 /\ wg_Done s = panic s) \/
  (1 <= wg (mon s) /\
   wg_Done s = set_mon (set_wg (wg (mon s) - 1) (mon s)) s).
Proof.
  unfold wg_Done. destruct (Z.ltb_spec (wg (mon s) - 1) 0); [left|right];
    (split; [lia | reflexivity]).
Qed.

Ltac sweep_simpl :=
  rewrite ?checkAllServices_mon, ?checkAllServices_goroutines,
    ?checkAllServices_app, ?checkAllServices_trace,
    ?checkAllServices_crashed.

Ltac step_simpl :=
  repeat match goal with
  | |- context [wg_Done ?s] =>
      destruct (wg_Done_cases s) as [[? ->]|[? ->]]
  | |- context [Stop_close ?s] =>
      unfold Stop_close; destruct (updates_closed (mon s)) eqn:?
  | r : (list service.Service + error)%type |- _ => destruct r
  end;
  simpl in *.

Lemma step_wg s l s' :
  Inv s -> step l s = Some s' ->
  wg (mon s') = pending_count (goroutines s').
Proof.
  intros HI H. pose proof (inv_wg _ HI) as Hwg. step_inversion H.
  all: sweep_simpl; step_simpl.
  all: rewrite ?pending_count_app, ?pending_count_fmap_cancel,
         ?pending_count_cancel_handles, ?pending_count_probes.
  all: repeat match goal with
       | Hl : goroutines _ !! _ = Some _ |- _ =>
           rewrite ?(pending_count_insert _ _ _ _ Hl);
           try pose proof (pending_count_lookup _ _ _ Hl eq_refl);
           clear Hl
       end.
  all: simpl; lia.
Qed.

Lemma step_root s l s' :
  Inv s -> step l s = Some s' ->
  ctx (mon s') <> Some DeadlineExceeded /\
  (stop_called (app s') = true -> ctx (mon s') = Some Canceled) /\
  (stop_called (app s') = false -> ctx (mon s') = None).
Proof.
  intros HI H.
  pose proof (inv_root_err _ HI) as Herr. pose proof (inv_root _ HI) as Hroot.
  pose proof (inv_root_live _ HI) as Hlive.
  step_inversion H.
  all: sweep_simpl; step_simpl.
  all: try match goal with Ha : app _ = _ |- _ => rewrite ?Ha end.
  all: try (split; [assumption | split; intros; auto; congruence]).
  all: destruct (ctx (mon s)) as [[]|]; simpl; repeat split; congruence.
Qed.

Lemma ctx_finish_done cause c : ctx_done (ctx_finish cause c) = true.
Proof. destruct c; reflexivity. Qed.

Lemma cascaded_cancel root g : cascaded root (cancel_goroutine g).
Proof. destruct g as [| |svc [e|] pc|]; simpl; auto. Qed.

Lemma cascaded_probes root services :
  Forall (cascaded root) (map probe_of services).
Proof.
  induction services as [|svc l IH]; constructor; [|exact IH].
  simpl. congruence.
Qed.

Lemma cascaded_cancel_handles root (kvs : list (string * nat)) gs :
  Forall (cascaded root) gs ->
  Forall (cascaded root)
    (foldr (fun kv gs => alter cancel_goroutine (snd kv) gs) gs kvs).
Proof.
  intros Hgs. induction kvs as [|kv kvs IH]; simpl; [exact Hgs|].
  apply Forall_alter; [exact IH|]. intros g _ _. apply cascaded_cancel.
Qed.

Lemma step_cascade s l s' :
  Inv s -> step l s = Some s' ->
  Forall (cascaded (ctx (mon s'))) (goroutines s').
Proof.
  intros HI H. pose proof (inv_cascade _ HI) as Hc. step_inversion H.
  all: sweep_simpl; step_simpl.
  all: repeat match goal with
       | Hl : goroutines _ !! _ = Some _ |- _ =>
           pose proof (Forall_lookup_1 _ _ _ _ Hc Hl); clear Hl
       end.
  all: repeat first
         [ assumption
         | apply Forall_app_2
         | apply Forall_insert
         | apply Forall_cons_2
         | apply Forall_nil_2
         | apply cascaded_probes
         | apply cascaded_cancel_handles
         | apply Forall_fmap, Forall_true; intros ?; apply cascaded_cancel ].
  all: simpl in *; auto.
  all: intros Hroot _; try rewrite Hroot; try reflexivity.
  all: destruct checkCtx; reflexivity.
Qed.

Ltac pending_facts :=
  try match goal with
  | Hl : goroutines _ !! _ = Some _ |- _ =>
      pose proof (pending_count_lookup _ _ _ Hl eq_refl)
  end.

Lemma step_interval s l s' :
  step l s = Some s' -> interval (mon s') = interval (mon s).
Proof.
  intros H. step_inversion H.
  all: sweep_simpl; step_simpl; reflexivity.
Qed.

Lemma step_waited s l s' :
  Inv s -> step l s = Some s' ->
  stop_past_wait (app s') = true -> pending_count (goroutines s') = 0.
Proof.
  intros HI H. rewrite <- (step_wg _ _ _ HI H).
  pose proof (inv_wg _ HI) as Hwg. pose proof (inv_waited _ HI) as Hw.
  step_inversion H.
  all: sweep_simpl; step_simpl; pending_facts.
  all: repeat match goal with
       | Ha : app _ = _ |- _ => rewrite Ha in *; clear Ha
       end; simpl in *.
  all: intros Hp; try discriminate Hp; try specialize (Hw Hp); lia.
Qed.

Ltac rewrite_app :=
  repeat match goal with
  | Ha : app _ = _ |- _ => rewrite Ha in *; clear Ha
  end.

Lemma step_closed s l s' :
  Inv s -> step l s = Some s' ->
  (updates_closed (mon s') = true <-> app s' = AppStopReturned None) /\
  (forall r, app s' = AppStopReturned r -> r = None).
Proof.
  intros HI H.
  pose proof (inv_closed _ HI) as Hc. pose proof (inv_returned _ HI) as Hr.
  step_inversion H.
  all: sweep_simpl; step_simpl; rewrite_app.
  all: split; [|intros r Hx; first [congruence | exact (Hr r Hx)]].
  all: try exact Hc.
  all: try (split; congruence).
  all: try (split; [intros Hx; apply Hc in Hx; discriminate Hx
                   | intros Hx; discriminate Hx]).
  all: repeat match goal with
       | He : updates_closed _ = _ |- _ => rewrite He in *; clear He
       end; exact Hc.
Qed.

Lemma step_crashed s l s' :
  Inv s -> step l s = Some s' ->
  crashed s' = true -> interval (mon s') <= 0.
Proof.
  intros HI H.
  pose proof (inv_wg _ HI) as Hwg. pose proof (inv_waited _ HI) as Hw.
  pose proof (inv_closed _ HI) as Hc.
  step_inversion H.
  all: sweep_simpl; step_simpl; pending_facts; rewrite_app.
  all: try congruence.
  all: try lia.
  all: destruct Hc as [Hc _]; specialize (Hc eq_refl); try discriminate Hc.
  all: rewrite Hc in Hw; specialize (Hw eq_refl); lia.
Qed.

Lemma performHealthCheck_events do c url st err evs :
  performHealthCheck do c url = ((st, err), evs) ->
  evs = [] \/ evs = [EvHttpDo "GET" url].
Proof.
  unfold performHealthCheck. intros H.
  repeat match type of H with
  | context [match ?x with _ => _ end] => destruct x
  end; injection H as <- <- <-; auto.
Qed.

Lemma step_channel s l s' :
  Inv s -> step l s = Some s' ->
  omap sent (trace s') = omap received (trace s') ++ updates (mon s').
Proof.
  intros HI H. pose proof (inv_channel _ HI) as Hch.
  step_inversion H.
  all: sweep_simpl; step_simpl.
  all: repeat match goal with
       | Hp : performHealthCheck _ _ _ = _ |- _ =>
           destruct (performHealthCheck_events _ _ _ _ _ _ Hp) as [-> | ->];
           clear Hp
       | Hu : updates _ = _ |- _ => rewrite Hu in *; clear Hu
       end.
  all: rewrite ?omap_app; simpl; rewrite ?app_nil_r in *; try assumption.
  all: repeat match goal with
       | |- context [match ?x with _ => _ end] => destruct x
       end; simpl.
  all: rewrite ?app_nil_r, Hch, <- ?app_assoc; reflexivity.
Qed.

(** ** The registry of cancel handles *)

Lemma handle_key_cancel g : handle_key (cancel_goroutine g) = handle_key g.
Proof. destruct g as [| |svc c pc|]; reflexivity. Qed.

Lemma registered_app gs gs' h id :
  registered gs h id -> registered (gs ++ gs') h id.
Proof.
  intros (g & Hg & Hk). exists g. split; [|exact Hk].
  apply lookup_app_l_Some. exact Hg.
Qed.

Lemma registered_fmap_cancel gs h id :
  registered gs h id -> registered (cancel_goroutine <$> gs) h id.
Proof.
  intros (g & Hg & Hk). exists (cancel_goroutine g). split.
  - rewrite list_lookup_fmap, Hg. reflexivity.
  - rewrite handle_key_cancel. exact Hk.
Qed.

Lemma registered_alter_cancel gs j h id :
  registered gs h id -> registered (alter cancel_goroutine j gs) h id.
Proof.
  intros (g & Hg & Hk). rewrite <- handle_key_cancel in Hk.
  destruct (decide (j = h)) as [->|Hne].
  - exists (cancel_goroutine g). split; [|exact Hk].
    rewrite list_lookup_alter_eq, Hg. reflexivity.
  - exists g. rewrite handle_key_cancel in Hk. split; [|exact Hk].
    rewrite list_lookup_alter_ne by exact Hne. exact Hg.
Qed.

Lemma registered_cancel_handles (kvs : list (string * nat)) gs h id :
  registered gs h id ->
  registered
    (foldr (fun kv gs => alter cancel_goroutine (snd kv) gs) gs kvs) h id.
Proof.
  intros Hr. induction kvs as [|kv kvs IH]; simpl; [exact Hr|].
  apply registered_alter_cancel. exact IH.
Qed.

Lemma registered_insert_eq gs i g g' id :
  gs !! i = Some g -> handle_key g' = Some id ->
  registered (<[i := g']> gs) i id.
Proof.
  intros Hg Hk. exists g'. split; [|exact Hk].
  apply list_lookup_insert_eq. eapply lookup_lt_Some. exact Hg.
Qed.

Lemma registered_insert gs i g g' h id :
  gs !! i = Some g -> registered gs h id ->
  (handle_key g = Some id -> handle_key g' = Some id) ->
  registered (<[i := g']> gs) h id.
Proof.
  intros Hg (g0 & Hg0 & Hk) Hkeep.
  destruct (decide (i = h)) as [->|Hne].
  - rewrite Hg in Hg0. injection Hg0 as <-.
    eapply registered_insert_eq; [exact Hg | auto].
  - exists g0. split; [|exact Hk].
    rewrite list_lookup_insert_ne by exact Hne. exact Hg0.
Qed.

Lemma step_registry s l s' :
  Inv s -> step l s = Some s' ->
  forall id h,
    activeChecks (mon s') !! id = Some h -> registered (goroutines s') h id.
Proof.
  intros HI H id h. pose proof (inv_registry _ HI) as Hreg.
  step_inversion H.
  all: sweep_simpl; step_simpl.
  all: intros Hm.
  all: try (apply lookup_insert_Some in Hm; destruct Hm as [[<- <-]|[Hne Hm]]).
  all: try (apply lookup_delete_Some in Hm; destruct Hm as [Hne Hm]).
  all: try (eapply registered_insert_eq; [eassumption | reflexivity]).
  all: specialize (Hreg _ _ Hm).
  all: repeat apply registered_app.
  all: first
         [ eapply registered_insert;
           [eassumption | exact Hreg | simpl; congruence]
         | apply registered_fmap_cancel; exact Hreg
         | apply registered_cancel_handles; exact Hreg
         | exact Hreg ].
Qed.

Lemma Inv_step s l s' : Inv s -> step l s = Some s' -> Inv s'.
Proof.
  intros HI H.
  destruct (step_root _ _ _ HI H) as (Herr & Hroot & Hlive).
  destruct (step_closed _ _ _ HI H) as [Hclosed Hret].
  split.
  - exact (step_wg _ _ _ HI H).
  - exact Herr.
  - exact Hroot.
  - exact Hlive.
  - exact (step_cascade _ _ _ HI H).
  - exact (step_waited _ _ _ HI H).
  - exact Hclosed.
  - exact Hret.
  - exact (step_registry _ _ _ HI H).
  - exact (step_channel _ _ _ HI H).
  - exact (step_crashed _ _ _ HI H).
Qed.

Lemma reachable_Inv s : reachable s -> Inv s.
Proof.
  induction 1 as [n | s l s' _ IH Hstep].
  - apply Inv_init.
  - exact (Inv_step _ _ _ IH Hstep).
Qed.

Lemma reachable_run ls s s' :
  reachable s -> run ls s = Some s' -> reachable s'.
Proof.
  revert s. induction ls as [|l ls IH]; intros s Hs Hrun; simpl in Hrun.
  - injection Hrun as <-. exact Hs.
  - destruct (step l s) as [s1|] eqn:Hstep; [|discriminate Hrun].
    exact (IH _ (reachable_step _ _ _ Hs Hstep) Hrun).
Qed.

Lemma run_app ls1 ls2 s :
  run (ls1 ++ ls2) s =
    match run ls1 s with Some s1 => run ls2 s1 | None => None end.
Proof.
  revert s. induction ls1 as [|l ls1 IH]; intros s; simpl; [reflexivity|].
  destruct (step l s); [apply IH | reflexivity].
Qed.

(** ** What a step does to the other goroutines *)

Lemma cancel_goroutine_idem g :
  cancel_goroutine (cancel_goroutine g) = cancel_goroutine g.
Proof. destruct g as [| |svc [e|] pc|]; reflexivity. Qed.

Lemma lookup_cancel_handles (kvs : list (string * nat))
    (gs : list Goroutine) i g :
  gs !! i = Some g ->
  let gs' := foldr (fun kv gs => alter cancel_goroutine (snd kv) gs) gs kvs in
  (i ∈ kvs.*2 -> gs' !! i = Some (cancel_goroutine g)) /\
  (gs' !! i = Some g \/ gs' !! i = Some (cancel_goroutine g)).
Proof.
  intros Hg. induction kvs as [|[k h] kvs [IHin IH]]; simpl.
  - split; [intros Hin; inversion Hin | left; exact Hg].
  - destruct (decide (h = i)) as [->|Hne].
    + rewrite list_lookup_alter_eq.
      assert (Hc : cancel_goroutine <$>
                foldr (fun kv gs => alter cancel_goroutine (snd kv) gs)
                  gs kvs !! i = Some (cancel_goroutine g)).
      { destruct IH as [-> | ->]; simpl; [reflexivity|].
        rewrite cancel_goroutine_idem. reflexivity. }
      split; [intros _|right]; exact Hc.
    + rewrite list_lookup_alter_ne by exact Hne. split; [|exact IH].
      intros Hin. apply IHin. apply elem_of_cons in Hin.
      destruct Hin as [Heq|Hin]; [congruence | exact Hin].
Qed.

(** A step of the system is a step of one goroutine; any other goroutine
    is left as it was, or has had its context cancelled by [Stop]. *)
Lemma step_frame s l s' i g :
  step l s = Some s' -> goroutines s !! i = Some g ->
  (exists a, l = LGo i a) \/
  goroutines s' !! i = Some g \/
  goroutines s' !! i = Some (cancel_goroutine g).
Proof.
  intros H Hg.
  assert (Hl : (exists a, l = LGo i a) \/ forall a, l <> LGo i a).
  { destruct l as [| | | | | |j a]; try (right; intros; discriminate).
    destruct (decide (j = i)) as [->|Hne]; [left; eauto|].
    right. intros a' Heq. injection Heq as Hj _. contradiction. }
  destruct Hl as [Hl|Hl]; [left; exact Hl|]. right.
  step_inversion H.
  all: sweep_simpl; step_simpl.
  all: try (left; reflexivity).
  all: try (right; rewrite list_lookup_fmap, Hg; reflexivity).
  all: try (apply lookup_cancel_handles; exact Hg).
  all: left; repeat apply lookup_app_l_Some; try exact Hg.
  all: rewrite list_lookup_insert_ne; [exact Hg|].
  all: intros ->; eapply Hl; reflexivity.
Qed.

(** * The claims *)

(** ** The Prober's classification *)

Lemma performHealthCheck_response url ctx code :
  url_parse_error url = None ->
  performHealthCheck (inl {| StatusCode := code |}) ctx url =
    if (200 <=? code) && (code <? 400)
    then ((service.StatusHealthy, None), [EvHttpDo "GET" url])
    else ((service.StatusUnhealthy,
           Some (fmt_Errorf_d "unhealthy status code: %d" code)),
          [EvHttpDo "GET" url]).
Proof.
  intros Hurl. unfold performHealthCheck. rewrite Hurl. reflexivity.
Qed.

(** C1. A probe whose request was built and that came back with a
    response is Healthy exactly when the status code is in [200, 400);
    with any other code it is Unhealthy. *)
Theorem check_classifies_response (url : string) (ctx : Context) (code : Z) :
  url_parse_error url = None ->
  let status :=
    fst (fst (performHealthCheck (inl {| StatusCode := code |}) ctx url)) in
  (status = service.StatusHealthy <-> 200 <= code < 400) /\
  (~ 200 <= code < 400 -> status = service.StatusUnhealthy).
Proof.
  intros Hurl status. subst status.
  rewrite performHealthCheck_response by assumption.
  destruct (Z.leb_spec 200 code), (Z.ltb_spec code 400); simpl;
    (split; [split; [intros Hst; try discriminate Hst; lia
                    | intros ?; try reflexivity; lia]
            | intros ?; try reflexivity; lia]).
Qed.

(** C2. A probe is classified Timeout exactly when its request was
    issued, came back without a response, and the probe's context reports
    that its deadline was exceeded; the verdict reads [ctx.Err()] and never
    the error that [Do] returned; a failed request whose context does not
    report the deadline is Unhealthy. *)
Theorem check_timeout_iff_deadline (do : Response + error) (ctx : Context)
    (url : string) :
  let status do := fst (fst (performHealthCheck do ctx url)) in
  (status do = service.StatusTimeout <->
     url_parse_error url = None /\ (exists err, do = inr err) /\
     ctx = Some DeadlineExceeded) /\
  (forall err err', status (inr err) = status (inr err')) /\
  (forall err,
     url_parse_error url = None -> do = inr err ->
     ctx <> Some DeadlineExceeded ->
     status do = service.StatusUnhealthy).
Proof.
  unfold performHealthCheck. cbv zeta.
  destruct (url_parse_error url) as [e|] eqn:Hurl.
  - repeat split; try discriminate; intros; try reflexivity.
    destruct H as [H _]. discriminate H.
  - split; [|split].
    + destruct do as [resp|err]; simpl.
      * destruct ((200 <=? StatusCode resp) && (StatusCode resp <? 400));
          simpl; split; try discriminate.
        all: intros (_ & [e He] & _); discriminate He.
      * destruct (decide (ctx = Some DeadlineExceeded)) as [Hd|Hd]; simpl.
        -- split; [intros _|reflexivity]. repeat split; eauto.
        -- split; [discriminate|]. intros (_ & _ & Hc). contradiction.
    + intros err err'. destruct (decide (ctx = Some DeadlineExceeded));
        reflexivity.
    + intros err _ -> Hd.
      destruct (decide (ctx = Some DeadlineExceeded)); [contradiction|].
      reflexivity.
Qed.

(** C9. A probe whose request cannot be built is Unknown and carries the
    cause; no request goes out; and in the engine the failure is nothing
    but the probe moving on to publish that outcome: monitor, other
    goroutines, application thread and trace are untouched, nothing
    panics. *)
Theorem check_unbuildable_request (url : string) (cause : error) :
  url_parse_error url = Some cause ->
  (forall do ctx,
     performHealthCheck do ctx url =
       ((service.StatusUnknown,
         Some (fmt_Errorf_w "failed to create request: %w" cause)), [])) /\
  (forall s i svc c do elapsed,
     crashed s = false ->
     goroutines s !! i = Some (GCheckService svc c ChkInFlight) ->
     service.URL svc = url ->
     exists s',
       step (LGo i (ActHealthCheck do elapsed)) s = Some s' /\
       goroutines s' =
         <[i := GCheckService svc c
                  (ChkPublish service.StatusUnknown
                     (Some (fmt_Errorf_w "failed to create request: %w"
                              cause))
                     elapsed)]> (goroutines s) /\
       mon s' = mon s /\ app s' = app s /\ trace s' = trace s /\
       crashed s' = false).
Proof.
  intros Hurl.
  assert (Hcheck : forall do ctx,
            performHealthCheck do ctx url =
              ((service.StatusUnknown,
                Some (fmt_Errorf_w "failed to create request: %w" cause)),
               [])).
  { intros do ctx. unfold performHealthCheck. rewrite Hurl. reflexivity. }
  split; [exact Hcheck|].
  intros s i svc c do elapsed Hcr Hg Hu.
  unfold step. rewrite Hcr, Hg. unfold step_checkService.
  rewrite Hu, Hcheck. eexists. split; [reflexivity|].
  simpl. rewrite app_nil_r. repeat split; assumption.
Qed.



(** What a step does to the channel: nothing, or a probe sends its
    outcome, or the Aggregator takes the oldest outcome, or a subscriber's
    handler does. *)
Lemma channel_operations s l s' :
  step l s = Some s' ->
  (omap sent (trace s') = omap sent (trace s) /\
   omap received (trace s') = omap received (trace s) /\
   updates (mon s') = updates (mon s)) \/
  (exists i svc c st err ms now,
      l = LGo i (ActPublish now SelSend) /\
      goroutines s !! i = Some (GCheckService svc c (ChkPublish st err ms)) /\
      let update := {| ServiceID := service.ID svc; Status := st;
                       ResponseTime := ms; Timestamp := now;
                       Error := err |} in
      omap sent (trace s') = omap sent (trace s) ++ [update] /\
      updates (mon s') = updates (mon s) ++ [update]) \/
  (exists i res update,
      l = LGo i (ActRecv res) /\
      goroutines s !! i = Some (GProcessUpdates AggSelect) /\
      updates (mon s) = update :: updates (mon s') /\
      omap receiver (trace s') = omap receiver (trace s) ++ [ByAggregator]) \/
  (exists i update,
      l = LGo i ActSseRecv /\
      goroutines s !! i = Some (GServiceUpdatesSSE SseSelect) /\
      updates (mon s) = update :: updates (mon s') /\
      omap receiver (trace s') = omap receiver (trace s) ++ [BySubscriber]).
Proof.
  intros H. step_inversion H.
  all: sweep_simpl; step_simpl.
  all: repeat match goal with
       | Hp : performHealthCheck _ _ _ = _ |- _ =>
           destruct (performHealthCheck_events _ _ _ _ _ _ Hp) as [-> | ->];
           clear Hp
       end.
  all: rewrite ?omap_app; simpl; rewrite ?app_nil_r.
  all: try (left; repeat split; first [reflexivity | assumption]).
  - right. right. left. eexists _, _, _.
    split; [reflexivity|].
    split; [first [eassumption | reflexivity]|].
    split; [first [eassumption | reflexivity]|].
    repeat match goal with
           | |- context [match ?x with _ => _ end] => destruct x
           end; reflexivity.
  - right. left. eexists _, _, _, _, _, _, _.
    split; [reflexivity|].
    split; [first [eassumption | reflexivity]|]. split; reflexivity.
  - right. right. right. eexists _, _.
    split; [reflexivity|].
    split; [first [eassumption | reflexivity]|].
    split; [first [eassumption | reflexivity]|].
    reflexivity.
Qed.

(** C4 (as the code has it).  In every reachable state the outcomes sent
    into the channel are, in order, the outcomes received from it followed
    by the outcomes still buffered: each outcome leaves the channel at
    most once and is taken by one receiver.  Outcomes are sent by probes
    only; the receiver of an outcome is the Aggregator or a subscriber's
    SSE handler. *)
Theorem channel_delivers_each_once (s : System) :
  reachable s ->
  omap sent (trace s) = omap received (trace s) ++ updates (mon s) /\
  length (omap receiver (trace s)) = length (omap received (trace s)) /\
  length (omap received (trace s)) =
    (length (omap handled (trace s)) + length (omap delivered (trace s)))%nat
  /\
  forall l s',
    step l s = Some s' ->
    (omap sent (trace s') = omap sent (trace s) /\
     omap received (trace s') = omap received (trace s) /\
     updates (mon s') = updates (mon s)) \/
    (exists i svc c st err ms now,
        l = LGo i (ActPublish now SelSend) /\
        goroutines s !! i = Some (GCheckService svc c (ChkPublish st err ms))
        /\
        let update := {| ServiceID := service.ID svc; Status := st;
                         ResponseTime := ms; Timestamp := now;
                         Error := err |} in
        omap sent (trace s') = omap sent (trace s) ++ [update] /\
        updates (mon s') = updates (mon s) ++ [update]) \/
    (exists i res update,
        l = LGo i (ActRecv res) /\
        goroutines s !! i = Some (GProcessUpdates AggSelect) /\
        updates (mon s) = update :: updates (mon s') /\
        omap receiver (trace s') = omap receiver (trace s) ++ [ByAggregator])
    \/
    (exists i update,
        l = LGo i ActSseRecv /\
        goroutines s !! i = Some (GServiceUpdatesSSE SseSelect) /\
        updates (mon s) = update :: updates (mon s') /\
        omap receiver (trace s') = omap receiver (trace s) ++ [BySubscriber]).
Proof.
  intros Hs. split; [exact (inv_channel _ (reachable_Inv _ Hs))|].
  split; [|split; [|exact (channel_operations s)]].
  - generalize (trace s). intros tr.
    induction tr as [|e tr IH]; [reflexivity|].
    unfold omap in *. destruct e; simpl in *; lia.
  - generalize (trace s). intros tr.
    induction tr as [|e tr IH]; [reflexivity|].
    unfold omap in *. destruct e; simpl in *; lia.
Qed.

(** ** The Aggregator's exit *)

Lemma pending_open s i g :
  reachable s -> goroutines s !! i = Some g -> pending g = true ->
  updates_closed (mon s) = false /\ stop_past_wait (app s) = false /\
  1 <= wg (mon s).
Proof.
  intros Hs Hg Hp. pose proof (reachable_Inv _ Hs) as HI.
  pose proof (pending_count_lookup _ _ _ Hg Hp) as Hc.
  assert (Hw : stop_past_wait (app s) = false).
  { destruct (stop_past_wait (app s)) eqn:Hw; [|reflexivity].
    pose proof (inv_waited _ HI Hw). lia. }
  repeat split; [|exact Hw|rewrite (inv_wg _ HI); exact Hc].
  destruct (updates_closed (mon s)) eqn:Hcl; [|reflexivity].
  apply (inv_closed _ HI) in Hcl. rewrite Hcl in Hw. discriminate Hw.
Qed.

(** C7 (as the code has it).  The Aggregator leaves its loop only by one
    of its two exits: the root context is done, or the channel is closed
    and drained.  In a reachable state the exit taken is the first one:
    Stop has been called and has cancelled the root context, and the
    channel is still open, whatever it holds. *)
Theorem aggregator_exit (s : System) (l : Label) (s' : System) (i : nat) :
  step l s = Some s' ->
  goroutines s !! i = Some (GProcessUpdates AggSelect) ->
  goroutines s' !! i = Some (GProcessUpdates AggReturned) ->
  (ctx_done (ctx (mon s)) = true \/
   (updates_closed (mon s) = true /\ updates (mon s) = [])) /\
  (reachable s ->
   l = LGo i ActAggDone /\ ctx (mon s) = Some Canceled /\
   stop_called (app s) = true /\ updates_closed (mon s) = false).
Proof.
  intros Hstep Hg Hg'.
  destruct (step_frame _ _ _ _ _ Hstep Hg) as [[a ->]|[Hsame|Hsame]];
    [|simpl in Hsame; rewrite Hsame in Hg'; discriminate Hg'..].
  assert (Hexit : (a = ActAggDone /\ ctx_done (ctx (mon s)) = true) \/
                  (updates_closed (mon s) = true /\ updates (mon s) = [])).
  { unfold step in Hstep. destruct (crashed s); [discriminate|].
    rewrite Hg in Hstep. unfold step_processUpdates in Hstep.
    destruct a; try discriminate Hstep.
    - destruct (updates (mon s)) as [|u rest] eqn:Hu.
      + destruct (updates_closed (mon s)); [|discriminate Hstep].
        right. split; reflexivity.
      + injection Hstep as <-. simpl in Hg'. rewrite Hg in Hg'.
        discriminate Hg'.
    - destruct (ctx_done (ctx (mon s))); [|discriminate Hstep].
      left. split; reflexivity. }
  split.
  - destruct Hexit as [[_ Hd]|Hc]; [left; exact Hd | right; exact Hc].
  - intros Hs. pose proof (reachable_Inv _ Hs) as HI.
    destruct (pending_open _ _ _ Hs Hg eq_refl) as (Hopen & _ & _).
    destruct Hexit as [[-> Hd]|[Hc _]]; [|congruence].
    assert (Hcan : ctx (mon s) = Some Canceled).
    { pose proof (inv_root_err _ HI).
      destruct (ctx (mon s)) as [[]|]; try reflexivity;
        [contradiction | discriminate Hd]. }
    repeat split; try assumption.
    destruct (stop_called (app s)) eqn:Hsc; [reflexivity|].
    pose proof (inv_root_live _ HI Hsc). congruence.
Qed.

(** ** The Scheduler *)

Lemma launched_sweep gs i g (new : list Goroutine) :
  drop (length gs) (<[i := g]> gs ++ new) = new.
Proof.
  rewrite <- (length_insert gs i g). apply drop_app_length.
Qed.

Lemma stop_called_of_done s :
  reachable s -> ctx_done (ctx (mon s)) = true ->
  stop_called (app s) = true /\ ctx (mon s) = Some Canceled.
Proof.
  intros Hs Hd. pose proof (reachable_Inv _ Hs) as HI.
  destruct (stop_called (app s)) eqn:Hsc.
  - split; [reflexivity | exact (inv_root _ HI Hsc)].
  - rewrite (inv_root_live _ HI Hsc) in Hd. discriminate Hd.
Qed.

(** C8.  With a positive interval, a Scheduler loop that has not
    returned sweeps whenever it is given the chance: once on entry, where
    the sweep is all it can do, and then at every tick.  A sweep whose
    listing succeeds launches exactly one probe per target listed, in
    order, and adds as many to the wait group; a sweep whose listing fails
    launches nothing; either way the loop is at its select afterwards.
    The loop returns only on the signal of the root context, which is
    given by Stop and by nothing else, and once it is given the loop can
    return.  [Start] spawns the loop at its entry. *)
Theorem scheduler_sweeps (s : System) (i : nat) (pc : LoopPc) :
  crashed s = false -> 0 < interval (mon s) ->
  goroutines s !! i = Some (GMonitorLoop pc) -> pc <> LoopReturned ->
  (forall res, exists s',
      step (LGo i (ActSweep res)) s = Some s' /\
      launched s s' =
        match res with
        | inl targets => map probe_of targets
        | inr _ => []
        end /\
      wg (mon s') = wg (mon s) + Z.of_nat (length (launched s s')) /\
      goroutines s' !! i = Some (GMonitorLoop LoopSelect) /\
      crashed s' = false) /\
  (pc = LoopInitial ->
   forall a s', step (LGo i a) s = Some s' -> exists res, a = ActSweep res) /\
  (forall a s',
      step (LGo i a) s = Some s' ->
      goroutines s' !! i = Some (GMonitorLoop LoopReturned) ->
      a = ActLoopDone /\ ctx_done (ctx (mon s)) = true) /\
  (reachable s -> ctx_done (ctx (mon s)) = true ->
   stop_called (app s) = true /\
   (pc = LoopSelect ->
    exists s',
      step (LGo i ActLoopDone) s = Some s' /\
      goroutines s' !! i = Some (GMonitorLoop LoopReturned) /\
      crashed s' = false)) /\
  (forall s0,
      goroutines (fst (Start s0)) !! length (goroutines s0) =
        Some (GMonitorLoop LoopInitial)).
Proof.
  intros Hcr Hint Hg Hpc.
  assert (Hticker : (interval (mon s) <=? 0) = false) by (apply Z.leb_gt; lia).
  assert (Hi : (i < length (goroutines s))%nat)
    by (eapply lookup_lt_Some; exact Hg).
  split; [|split; [|split; [|split]]].
  - intros res. unfold step. rewrite Hcr, Hg. unfold step_monitorLoop.
    destruct pc; [| |contradiction].
    + rewrite Hticker. eexists. split; [reflexivity|].
      unfold launched. sweep_simpl. simpl.
      rewrite launched_sweep.
      rewrite (lookup_app_l_Some _ _ _ (GMonitorLoop LoopSelect))
        by (apply list_lookup_insert_eq; exact Hi).
      destruct res as [targets|err]; simpl;
        rewrite ?length_map; repeat split; try assumption; lia.
    + eexists. split; [reflexivity|].
      unfold launched. sweep_simpl. rewrite drop_app_length.
      rewrite (lookup_app_l_Some _ _ _ _ Hg).
      destruct res as [targets|err]; simpl;
        rewrite ?length_map; repeat split; try assumption; lia.
  - intros -> a s' Hstep. unfold step in Hstep.
    rewrite Hcr, Hg in Hstep. unfold step_monitorLoop in Hstep.
    destruct a; try discriminate Hstep. eexists. reflexivity.
  - intros a s' Hstep Hret. unfold step in Hstep.
    rewrite Hcr, Hg in Hstep. unfold step_monitorLoop in Hstep.
    destruct pc, a; try discriminate Hstep; try contradiction.
    + rewrite Hticker in Hstep. injection Hstep as <-.
      rewrite checkAllServices_goroutines in Hret. simpl in Hret.
      rewrite (lookup_app_l_Some _ _ _ (GMonitorLoop LoopSelect)) in Hret
        by (apply list_lookup_insert_eq; exact Hi).
      discriminate Hret.
    + injection Hstep as <-.
      rewrite checkAllServices_goroutines in Hret.
      rewrite (lookup_app_l_Some _ _ _ _ Hg) in Hret. discriminate Hret.
    + destruct (ctx_done (ctx (mon s))); [|discriminate Hstep].
      split; reflexivity.
  - intros Hs Hd. split; [exact (proj1 (stop_called_of_done _ Hs Hd))|].
    intros ->. unfold step. rewrite Hcr, Hg. simpl. rewrite Hd.
    destruct (pending_open _ _ _ Hs Hg eq_refl) as (_ & _ & Hwg).
    match goal with
    | |- context [wg_Done ?s0] =>
        destruct (wg_Done_cases s0) as [[Hle _]|[_ ->]]; [simpl in Hle; lia|]
    end.
    eexists. split; [reflexivity|]. simpl.
    split; [apply list_lookup_insert_eq; exact Hi | exact Hcr].
  - intros s0. simpl. rewrite <- app_assoc.
    rewrite lookup_app_r by reflexivity. rewrite Nat.sub_diag. reflexivity.
Qed.

(** ** Publishing an outcome *)

Lemma past_delete_unregistered s j svc c pc :
  reachable s ->
  goroutines s !! j = Some (GCheckService svc c pc) ->
  past_delete pc = true ->
  forall id, activeChecks (mon s) !! id <> Some j.
Proof.
  intros Hs Hg Hpast id Hm.
  destruct (inv_registry _ (reachable_Inv _ Hs) _ _ Hm) as (g & Hg' & Hk).
  rewrite Hg in Hg'. injection Hg' as <-. simpl in Hk.
  destruct pc; simpl in *; discriminate.
Qed.

(** C5.  A probe at the select that publishes its outcome can always
    take a step, and no such step panics: the send never blocks it.
    Whatever case the select takes, the probe goes on to its deferred
    calls, the first of which deletes its service ID from the registry
    while the probe has not yet returned.  If the channel is full the
    case taken is not the send, and the outcome is gone: the channel, the
    registry and the wait group are as before and nothing was sent.
    Which case it is, the root context decides: while it is live, the
    default case, whose one effect is the log line that reports the drop;
    once it is cancelled, the case of the context, which writes nothing.
    A probe past its deferred delete, and so a probe that has returned,
    has no handle in the registry. *)
Theorem publish_never_blocks (s : System) (i : nat) (svc : service.Service)
    (c : Context) (st : service.Status) (err : option error) (ms : Z) :
  reachable s -> crashed s = false ->
  goroutines s !! i = Some (GCheckService svc c (ChkPublish st err ms)) ->
  (forall now, exists sel s',
      step (LGo i (ActPublish now sel)) s = Some s' /\ crashed s' = false) /\
  (forall now sel s',
      step (LGo i (ActPublish now sel)) s = Some s' ->
      goroutines s' = <[i := GCheckService svc c ChkDeferDelete]> (goroutines s)
      /\
      ((updates_capacity <= length (updates (mon s)))%nat ->
       sel <> SelSend /\
       updates (mon s') = updates (mon s) /\
       activeChecks (mon s') = activeChecks (mon s) /\
       wg (mon s') = wg (mon s) /\
       omap sent (trace s') = omap sent (trace s) /\
       ((sel = SelDefault /\ ctx_done (ctx (mon s)) = false /\
         trace s' = trace s ++ [EvLog (LogChannelFull (service.ID svc))]) \/
        (sel = SelCtxDone /\ ctx_done (ctx (mon s)) = true /\
         trace s' = trace s)))
      /\
      exists s'',
        step (LGo i ActDeferDelete) s' = Some s'' /\
        activeChecks (mon s'') !! service.ID svc = None /\
        goroutines s'' !! i = Some (GCheckService svc c ChkDeferCancel)) /\
  (forall j svc' c' pc',
      goroutines s !! j = Some (GCheckService svc' c' pc') ->
      past_delete pc' = true ->
      forall id, activeChecks (mon s) !! id <> Some j).
Proof.
  intros Hs Hcr Hg.
  destruct (pending_open _ _ _ Hs Hg eq_refl) as (Hopen & _ & _).
  assert (Hi : (i < length (goroutines s))%nat)
    by (eapply lookup_lt_Some; exact Hg).
  split; [|split].
  - intros now. unfold step. rewrite Hcr, Hg. unfold step_checkService.
    destruct (channel_has_room (mon s)) eqn:Hroom.
    + exists SelSend. rewrite Hopen. eexists.
      split; [reflexivity | exact Hcr].
    + destruct (ctx_done (ctx (mon s))) eqn:Hd.
      * exists SelCtxDone. eexists.
        split; [reflexivity | exact Hcr].
      * exists SelDefault. rewrite Hopen. eexists.
        split; [reflexivity | exact Hcr].
  - intros now sel s' Hstep. unfold step in Hstep.
    rewrite Hcr, Hg in Hstep. unfold step_checkService in Hstep.
    rewrite Hopen in Hstep.
    assert (Hfull : (updates_capacity <= length (updates (mon s)))%nat ->
                    channel_has_room (mon s) = false).
    { intros Hle. unfold channel_has_room. apply Nat.ltb_ge. exact Hle. }
    assert (Hnext : forall s1,
              crashed s1 = false ->
              goroutines s1 =
                <[i := GCheckService svc c ChkDeferDelete]> (goroutines s) ->
              exists s'',
                step (LGo i ActDeferDelete) s1 = Some s'' /\
                activeChecks (mon s'') !! service.ID svc = None /\
                goroutines s'' !! i =
                  Some (GCheckService svc c ChkDeferCancel)).
    { intros s1 Hcr1 Hgs1. unfold step. rewrite Hcr1, Hgs1.
      rewrite list_lookup_insert_eq by exact Hi. simpl.
      eexists. split; [reflexivity|]. simpl. split.
      - apply lookup_delete_eq.
      - rewrite Hgs1. apply list_lookup_insert_eq.
        rewrite length_insert. exact Hi. }
    destruct sel.
    + destruct (channel_has_room (mon s)) eqn:Hroom; [|discriminate Hstep].
      injection Hstep as <-. simpl. split; [reflexivity|]. split.
      * intros Hle. specialize (Hfull Hle). discriminate Hfull.
      * apply Hnext; [exact Hcr | reflexivity].
    + destruct (ctx_done (ctx (mon s))) eqn:Hd; [|discriminate Hstep].
      injection Hstep as <-. simpl. split; [reflexivity|]. split.
      * intros _. split; [discriminate|].
        split; [reflexivity|]. split; [reflexivity|]. split; [reflexivity|].
        split; [reflexivity|]. right. repeat split.
      * apply Hnext; [exact Hcr | reflexivity].
    + destruct (channel_has_room (mon s)); [discriminate Hstep|].
      destruct (ctx_done (ctx (mon s))) eqn:Hd; [discriminate Hstep|].
      injection Hstep as <-. simpl. split; [reflexivity|]. split.
      * intros _. split; [discriminate|].
        split; [reflexivity|]. split; [reflexivity|]. split; [reflexivity|].
        split.
        -- unfold omap. rewrite omap_app. simpl. apply app_nil_r.
        -- left. repeat split.
      * apply Hnext; [exact Hcr | reflexivity].
  - intros j svc' c' pc' Hj Hpast.
    exact (past_delete_unregistered _ _ _ _ _ Hs Hj Hpast).
Qed.

(** ** Stop *)

Lemma cancel_activeChecks_invokes s id h g :
  activeChecks (mon s) !! id = Some h ->
  goroutines s !! h = Some g ->
  goroutines (cancel_activeChecks s) !! h = Some (cancel_goroutine g).
Proof.
  intros Hm Hg. unfold cancel_activeChecks. simpl.
  apply (lookup_cancel_handles _ _ _ _ Hg).
  apply list_elem_of_fmap. exists (id, h). split; [reflexivity|].
  apply elem_of_map_to_list. exact Hm.
Qed.

Lemma cancel_handles_others (kvs : list (string * nat))
    (gs : list Goroutine) j :
  j ∉ kvs.*2 ->
  foldr (fun kv gs => alter cancel_goroutine (snd kv) gs) gs kvs !! j
  = gs !! j.
Proof.
  induction kvs as [|[k h] kvs IH]; intros Hj; simpl; [reflexivity|].
  simpl in Hj. apply not_elem_of_cons in Hj. destruct Hj as [Hne Hj].
  rewrite list_lookup_alter_ne by congruence. exact (IH Hj).
Qed.

Lemma waited_all_returned s :
  reachable s -> stop_past_wait (app s) = true ->
  forall i g, goroutines s !! i = Some g -> pending g = false.
Proof.
  intros Hs Hw i g Hg.
  exact (pending_count_zero _ _ _
           (inv_waited _ (reachable_Inv _ Hs) Hw) Hg).
Qed.

(** Only the four statements of [Stop] move the application thread. *)
Lemma step_app s l s' :
  step l s = Some s' -> app s' <> app s ->
  (app s = AppIdle /\ l = LStopCancel /\ s' = Stop_cancel s) \/
  (app s = AppStopCancelAll /\ l = LStopCancelAll /\ s' = Stop_cancelAll s) \/
  (app s = AppStopWait /\ l = LStopWait /\ wg (mon s) = 0 /\
   s' = set_app AppStopClose s) \/
  (app s = AppStopClose /\ l = LStopClose /\ s' = Stop_close s).
Proof.
  intros H Hne. step_inversion H.
  all: try (exfalso; apply Hne; sweep_simpl; step_simpl; congruence).
  - left. auto.
  - right. left. auto.
  - right. right. left. repeat split; try assumption. lia.
  - right. right. right. auto.
Qed.

(** C6.  The loop of [Stop] over the registry calls every registered
    handle, in whatever state it finds the engine: the context of every
    registered probe is cancelled by it, a goroutine that is not
    registered is left as it is, and so are the monitor and the trace.
    And [Stop] goes through its statements in order; in a reachable state
    each does what it says: [m.cancel()] leaves the root context cancelled
    and with it the context of every probe; the loop comes next;
    [m.wg.Wait()] does not return while a Scheduler loop, a probe or an
    Aggregator has yet to finish, and when it returns the channel is still
    open; the channel is closed by the last statement.  So: once Stop is
    called the root context is cancelled; past the wait everything waited
    for has returned; a closed channel means Stop has returned; and after
    Stop has returned no sweep can start. *)
Theorem stop_shutdown_order (s : System) :
  (crashed s = false -> app s = AppStopCancelAll ->
   exists s',
     step LStopCancelAll s = Some s' /\ app s' = AppStopWait /\
     mon s' = mon s /\ trace s' = trace s /\ crashed s' = false /\
     (forall id h g,
        activeChecks (mon s) !! id = Some h -> goroutines s !! h = Some g ->
        goroutines s' !! h = Some (cancel_goroutine g)) /\
     (forall j,
        (forall id, activeChecks (mon s) !! id <> Some j) ->
        goroutines s' !! j = goroutines s !! j)) /\
  (reachable s ->
  (forall l s',
      step l s = Some s' -> app s' <> app s ->
      (app s = AppIdle /\ l = LStopCancel /\ app s' = AppStopCancelAll /\
       ctx (mon s') = Some Canceled /\
       goroutines s' = cancel_goroutine <$> goroutines s) \/
      (app s = AppStopCancelAll /\ l = LStopCancelAll /\
       app s' = AppStopWait /\
       forall id h g,
         activeChecks (mon s) !! id = Some h -> goroutines s !! h = Some g ->
         goroutines s' !! h = Some (cancel_goroutine g)) \/
      (app s = AppStopWait /\ l = LStopWait /\ app s' = AppStopClose /\
       (forall i g, goroutines s !! i = Some g -> pending g = false) /\
       updates_closed (mon s') = false) \/
      (app s = AppStopClose /\ l = LStopClose /\
       app s' = AppStopReturned None /\ updates_closed (mon s') = true)) /\
  (forall i g,
      goroutines s !! i = Some g -> pending g = true ->
      step LStopWait s = None /\ updates_closed (mon s) = false) /\
  (stop_called (app s) = true ->
   ctx (mon s) = Some Canceled /\
   forall i svc c pc,
     goroutines s !! i = Some (GCheckService svc c pc) -> pc <> ChkStart ->
     ctx_done c = true) /\
  (stop_past_wait (app s) = true ->
   forall i g, goroutines s !! i = Some g -> pending g = false) /\
  (updates_closed (mon s) = true -> app s = AppStopReturned None) /\
  (forall r, app s = AppStopReturned r ->
   forall i res, step (LGo i (ActSweep res)) s = None)).
Proof.
  split.
  { intros Hcr Ha. unfold step. rewrite Hcr, Ha. eexists.
    split; [reflexivity|]. unfold Stop_cancelAll. simpl.
    repeat split; try assumption.
    - intros id h g Hm Hg. exact (cancel_activeChecks_invokes _ _ _ _ Hm Hg).
    - intros j Hj. apply cancel_handles_others. intros Hin.
      apply list_elem_of_fmap in Hin. destruct Hin as ([k h] & -> & Hin).
      apply elem_of_map_to_list in Hin. exact (Hj k Hin). }
  intros Hs. pose proof (reachable_Inv _ Hs) as HI.
  split; [|split; [|split; [|split; [|split]]]].
  - intros l s' Hstep Hne.
    destruct (step_app _ _ _ Hstep Hne)
      as [(Ha & -> & ->)|[(Ha & -> & ->)|[(Ha & -> & Hwg & ->)
                                          |(Ha & -> & ->)]]].
    + left. repeat split; try assumption.
      simpl. pose proof (inv_root_err _ HI).
      destruct (ctx (mon s)) as [[]|]; try reflexivity. contradiction.
    + right. left. repeat split; try assumption.
      intros id h g Hm Hg.
      exact (cancel_activeChecks_invokes _ _ _ _ Hm Hg).
    + right. right. left. repeat split; try assumption.
      * intros i g Hg. apply (pending_count_zero (goroutines s) i); [|exact Hg].
        rewrite <- (inv_wg _ HI). exact Hwg.
      * simpl. destruct (updates_closed (mon s)) eqn:Hc; [|reflexivity].
        apply (inv_closed _ HI) in Hc. congruence.
    + right. right. right.
      assert (Hopen : updates_closed (mon s) = false).
      { destruct (updates_closed (mon s)) eqn:Hc; [|reflexivity].
        apply (inv_closed _ HI) in Hc. congruence. }
      unfold Stop_close. rewrite Hopen. repeat split; assumption.
  - intros i g Hg Hp.
    destruct (pending_open _ _ _ Hs Hg Hp) as (Hopen & _ & Hwg).
    split; [|exact Hopen]. unfold step.
    destruct (crashed s); [reflexivity|].
    destruct (app s); try reflexivity. unfold Stop_wait.
    destruct (Z.eqb_spec (wg (mon s)) 0); [lia | reflexivity].
  - intros Hc. split; [exact (inv_root _ HI Hc)|].
    intros i svc c pc Hg Hpc.
    exact (Forall_lookup_1 _ _ _ _ (inv_cascade _ HI) Hg
             (inv_root _ HI Hc) Hpc).
  - exact (waited_all_returned _ Hs).
  - intros Hc. apply (inv_closed _ HI). exact Hc.
  - intros r Hr i res. unfold step.
    destruct (crashed s); [reflexivity|].
    destruct (goroutines s !! i) as [g|] eqn:Hg; [|reflexivity].
    assert (Hp : pending g = false).
    { apply (waited_all_returned _ Hs) with (i := i); [|exact Hg].
      rewrite Hr. reflexivity. }
    destruct g as [[]|[]|svc c []|[]]; try discriminate Hp; reflexivity.
Qed.

(** ** Stop can always return *)

Lemma total_rank_insert gs i g g' :
  gs !! i = Some g ->
  (total_rank (<[i := g']> gs) + rank g = total_rank gs + rank g')%nat.
Proof.
  revert i. induction gs as [|g0 gs IH]; intros [|i] Hi; simpl in *;
    try discriminate.
  - injection Hi as ->. lia.
  - specialize (IH i Hi). lia.
Qed.

Lemma pending_find gs :
  pending_count gs <> 0 ->
  exists i g, gs !! i = Some g /\ pending g = true.
Proof.
  induction gs as [|g gs IH]; simpl; [congruence|].
  destruct (pending g) eqn:Hp.
  - intros _. exists 0%nat, g. split; [reflexivity | exact Hp].
  - intros Hn. destruct IH as (i & g' & Hg & Hp'); [lia|].
    exists (S i), g'. split; assumption.
Qed.

(** Once the root context is cancelled, a goroutine the wait group waits
    for can take a step that brings it closer to its return, adds no
    goroutine and panics nowhere. *)
Lemma finish_step s i g :
  reachable s -> crashed s = false -> 0 < interval (mon s) ->
  stop_called (app s) = true ->
  goroutines s !! i = Some g -> pending g = true ->
  exists l s',
    step l s = Some s' /\ crashed s' = false /\ app s' = app s /\
    (total_rank (goroutines s') < total_rank (goroutines s))%nat.
Proof.
  intros Hs Hcr Hint Hstop Hg Hp.
  pose proof (reachable_Inv _ Hs) as HI.
  destruct (pending_open _ _ _ Hs Hg Hp) as (Hopen & _ & Hwg).
  pose proof (inv_root _ HI Hstop) as Hctx.
  assert (Hticker : (interval (mon s) <=? 0) = false) by (apply Z.leb_gt; lia).
  assert (Hdone : forall s0, wg (mon s0) = wg (mon s) ->
            wg_Done s0 = set_mon (set_wg (wg (mon s0) - 1) (mon s0)) s0).
  { intros s0 Hw. destruct (wg_Done_cases s0) as [[Hle _]|[_ Heq]];
      [lia | exact Heq]. }
  pose proof (fun g' => total_rank_insert _ _ _ g' Hg) as Hrank.
  destruct g as [[]|[]|svc c []|[]]; try discriminate Hp.
  - exists (LGo i (ActSweep (inr (errors_New "context canceled")))).
    eexists. unfold step. rewrite Hcr, Hg. simpl. rewrite Hticker.
    split; [reflexivity|]. simpl.
    specialize (Hrank (GMonitorLoop LoopSelect)). simpl in Hrank.
    repeat split; [assumption | lia].
  - exists (LGo i ActLoopDone). eexists. unfold step. rewrite Hcr, Hg.
    simpl. rewrite Hctx. simpl. rewrite Hdone by reflexivity.
    split; [reflexivity|]. simpl.
    specialize (Hrank (GMonitorLoop LoopReturned)). simpl in Hrank.
    repeat split; [assumption | lia].
  - exists (LGo i ActAggDone). eexists. unfold step. rewrite Hcr, Hg.
    simpl. rewrite Hctx. simpl. rewrite Hdone by reflexivity.
    split; [reflexivity|]. simpl.
    specialize (Hrank (GProcessUpdates AggReturned)). simpl in Hrank.
    repeat split; [assumption | lia].
  - exists (LGo i ActRegister). eexists. unfold step. rewrite Hcr, Hg.
    simpl. split; [reflexivity|]. simpl.
    specialize (Hrank (GCheckService svc (ctx (mon s)) ChkInFlight)).
    simpl in Hrank. repeat split; [assumption | lia].
  - exists (LGo i (ActHealthCheck (inr (errors_New "context canceled")) 0)).
    unfold step. rewrite Hcr, Hg. simpl.
    destruct (performHealthCheck _ c (service.URL svc)) as [[st err] evs].
    eexists. split; [reflexivity|]. simpl.
    specialize (Hrank (GCheckService svc c (ChkPublish st err 0))).
    simpl in Hrank. repeat split; [assumption | lia].
  - exists (LGo i (ActPublish 0 SelCtxDone)). eexists. unfold step.
    rewrite Hcr, Hg. simpl. rewrite Hctx. simpl.
    split; [reflexivity|]. simpl.
    specialize (Hrank (GCheckService svc c ChkDeferDelete)).
    simpl in Hrank. repeat split; [assumption | lia].
  - exists (LGo i ActDeferDelete). eexists. unfold step. rewrite Hcr, Hg.
    simpl. split; [reflexivity|]. simpl.
    specialize (Hrank (GCheckService svc c ChkDeferCancel)).
    simpl in Hrank. repeat split; [assumption | lia].
  - exists (LGo i ActDeferCancel). eexists. unfold step. rewrite Hcr, Hg.
    simpl. split; [reflexivity|]. simpl.
    specialize (Hrank (GCheckService svc (ctx_finish Canceled c)
                         ChkDeferDone)).
    simpl in Hrank. repeat split; [assumption | lia].
  - exists (LGo i ActDeferDone). eexists. unfold step. rewrite Hcr, Hg.
    simpl. rewrite Hdone by reflexivity.
    split; [reflexivity|]. simpl.
    specialize (Hrank (GCheckService svc c ChkReturned)).
    simpl in Hrank. repeat split; [assumption | lia].
Qed.

Lemma run_cons_ex (P : System -> Prop) s l s1 :
  step l s = Some s1 ->
  (exists ls s', run ls s1 = Some s' /\ P s') ->
  exists ls s', run ls s = Some s' /\ P s'.
Proof.
  intros Hstep (ls & s' & Hrun & HP). exists (l :: ls), s'.
  simpl. rewrite Hstep. split; assumption.
Qed.

(** With the root context cancelled, some schedule brings the wait group
    to zero. *)
Lemma drain n :
  forall s,
    total_rank (goroutines s) = n ->
    reachable s -> crashed s = false -> 0 < interval (mon s) ->
    stop_called (app s) = true ->
    exists ls s',
      run ls s = Some s' /\
      (crashed s' = false /\ app s' = app s /\ wg (mon s') = 0).
Proof.
  induction n as [n IH] using lt_wf_ind.
  intros s Hn Hs Hcr Hint Hstop.
  destruct (Z.eq_dec (pending_count (goroutines s)) 0) as [Hz|Hnz].
  - exists [], s. simpl. repeat split; try assumption.
    rewrite (inv_wg _ (reachable_Inv _ Hs)). exact Hz.
  - destruct (pending_find _ Hnz) as (i & g & Hg & Hp).
    destruct (finish_step _ _ _ Hs Hcr Hint Hstop Hg Hp)
      as (l & s1 & Hstep & Hcr1 & Happ1 & Hlt).
    apply (run_cons_ex _ _ _ _ Hstep).
    rewrite <- Happ1.
    apply (IH (total_rank (goroutines s1))); try assumption.
    + lia.
    + reflexivity.
    + exact (reachable_step _ _ _ Hs Hstep).
    + rewrite (step_interval _ _ _ Hstep). exact Hint.
    + rewrite Happ1. exact Hstop.
Qed.

Lemma stop_returns_from_close s :
  reachable s -> crashed s = false -> app s = AppStopClose ->
  exists ls s',
    run ls s = Some s' /\ (app s' = AppStopReturned None /\ crashed s' = false).
Proof.
  intros Hs Hcr Ha. pose proof (reachable_Inv _ Hs) as HI.
  assert (Hopen : updates_closed (mon s) = false).
  { destruct (updates_closed (mon s)) eqn:Hc; [|reflexivity].
    apply (inv_closed _ HI) in Hc. congruence. }
  exists [LStopClose]. eexists. simpl. unfold step. rewrite Hcr, Ha.
  unfold Stop_close. rewrite Hopen. split; [reflexivity|].
  split; [reflexivity | exact Hcr].
Qed.

Lemma stop_returns_from_wait s :
  reachable s -> crashed s = false -> 0 < interval (mon s) ->
  app s = AppStopWait ->
  exists ls s',
    run ls s = Some s' /\ (app s' = AppStopReturned None /\ crashed s' = false).
Proof.
  intros Hs Hcr Hint Ha.
  destruct (drain _ s eq_refl Hs Hcr Hint) as (ls & s1 & Hrun & Hcr1 & Ha1 & Hwg).
  { rewrite Ha. reflexivity. }
  pose proof (reachable_run _ _ _ Hs Hrun) as Hs1.
  assert (Hstep : step LStopWait s1 = Some (set_app AppStopClose s1)).
  { unfold step. rewrite Hcr1, Ha1, Ha. unfold Stop_wait. rewrite Hwg.
    reflexivity. }
  destruct (stop_returns_from_close (set_app AppStopClose s1))
    as (ls2 & s2 & Hrun2 & HP);
    [exact (reachable_step _ _ _ Hs1 Hstep) | exact Hcr1 | reflexivity|].
  exists (ls ++ LStopWait :: ls2), s2. rewrite run_app, Hrun. simpl.
  rewrite Hstep. split; assumption.
Qed.

Lemma stop_can_return s :
  reachable s -> crashed s = false -> 0 < interval (mon s) ->
  exists ls s',
    run ls s = Some s' /\ (app s' = AppStopReturned None /\ crashed s' = false).
Proof.
  intros Hs Hcr Hint.
  assert (Hall : forall s1,
            reachable s1 -> crashed s1 = false -> 0 < interval (mon s1) ->
            app s1 = AppStopCancelAll ->
            exists ls s',
              run ls s1 = Some s' /\
              (app s' = AppStopReturned None /\ crashed s' = false)).
  { intros s1 Hs1 Hcr1 Hint1 Ha1.
    assert (Hstep : step LStopCancelAll s1 = Some (Stop_cancelAll s1)).
    { unfold step. rewrite Hcr1, Ha1. reflexivity. }
    apply (run_cons_ex _ _ _ _ Hstep).
    apply stop_returns_from_wait;
      [exact (reachable_step _ _ _ Hs1 Hstep) | exact Hcr1 | exact Hint1
      | reflexivity]. }
  destruct (app s) as [| | | |r] eqn:Ha.
  - assert (Hstep : step LStopCancel s = Some (Stop_cancel s)).
    { unfold step. rewrite Hcr, Ha. reflexivity. }
    apply (run_cons_ex _ _ _ _ Hstep).
    apply Hall;
      [exact (reachable_step _ _ _ Hs Hstep) | exact Hcr | exact Hint
      | reflexivity].
  - apply Hall; assumption.
  - apply stop_returns_from_wait; assumption.
  - apply stop_returns_from_close; assumption.
  - exists [], s. simpl. split; [reflexivity|]. split; [|exact Hcr].
    rewrite Ha. f_equal. exact (inv_returned _ (reachable_Inv _ Hs) _ Ha).
Qed.

(** C10.  [Start] returns nil, always, having spawned the Scheduler loop
    and the Aggregator and having added both to the wait group; so the
    caller's fatal branch on a failed start is never taken.  Whenever
    [Stop] has returned it has returned nil, with the channel closed and
    every goroutine it waits for finished.  And [Stop] is never stuck:
    from every reachable state of a live process whose interval is
    positive some schedule makes it return nil. *)
Theorem lifecycle_never_fails :
  (forall s,
      snd (Start s) = None /\
      goroutines (fst (Start s)) =
        goroutines s ++ [GMonitorLoop LoopInitial; GProcessUpdates AggSelect]
      /\
      wg (mon (fst (Start s))) = wg (mon s) + 2) /\
  (forall s s',
      step LStart s = Some s' -> s' = fst (Start s) /\ crashed s' = false) /\
  (forall s r,
      reachable s -> app s = AppStopReturned r ->
      r = None /\ updates_closed (mon s) = true /\
      forall i g, goroutines s !! i = Some g -> pending g = false) /\
  (forall s,
      reachable s -> crashed s = false -> 0 < interval (mon s) ->
      exists ls s',
        run ls s = Some s' /\
        (app s' = AppStopReturned None /\ crashed s' = false)).
Proof.
  split; [|split; [|split]].
  - intros s. simpl. rewrite <- app_assoc. repeat split. lia.
  - intros s s' Hstep. unfold step in Hstep.
    destruct (crashed s) eqn:Hcr; [discriminate Hstep|].
    destruct (app s); try discriminate Hstep.
    simpl in Hstep. injection Hstep as <-. split; [reflexivity | exact Hcr].
  - intros s r Hs Hr. pose proof (reachable_Inv _ Hs) as HI.
    pose proof (inv_returned _ HI _ Hr) as ->.
    split; [reflexivity|]. split; [apply (inv_closed _ HI); exact Hr|].
    apply (waited_all_returned _ Hs). rewrite Hr. reflexivity.
  - exact stop_can_return.
Qed.

(** * Further properties *)

(** ** Counting goroutines *)

Lemma tally_nonneg f gs : 0 <= tally f gs.
Proof. induction gs as [|g gs IH]; simpl; [lia | destruct (f g); lia]. Qed.

Lemma tally_app f gs1 gs2 : tally f (gs1 ++ gs2) = tally f gs1 + tally f gs2.
Proof. induction gs1 as [|g gs1 IH]; simpl; [reflexivity | rewrite IH; lia]. Qed.

Lemma tally_insert f gs i g g' :
  gs !! i = Some g ->
  tally f (<[i := g']> gs) =
    tally f gs - (if f g then 1 else 0) + (if f g' then 1 else 0).
Proof.
  revert i. induction gs as [|g0 gs IH]; intros [|i] Hi; simpl in *;
    try discriminate.
  - injection Hi as ->. lia.
  - rewrite (IH i Hi). lia.
Qed.

Lemma tally_fmap_cancel f gs :
  (forall g, f (cancel_goroutine g) = f g) ->
  tally f (cancel_goroutine <$> gs) = tally f gs.
Proof.
  intros Hf. induction gs as [|g gs IH]; [reflexivity|].
  rewrite fmap_cons. cbn [tally]. rewrite Hf, IH. reflexivity.
Qed.

Lemma tally_alter_cancel f gs h :
  (forall g, f (cancel_goroutine g) = f g) ->
  tally f (alter cancel_goroutine h gs) = tally f gs.
Proof.
  intros Hf. unfold alter. revert h.
  induction gs as [|g gs IH]; intros [|h]; simpl; try reflexivity.
  - rewrite Hf. reflexivity.
  - rewrite IH. reflexivity.
Qed.

Lemma tally_cancel_handles f (kvs : list (string * nat)) gs :
  (forall g, f (cancel_goroutine g) = f g) ->
  tally f (foldr (fun kv gs => alter cancel_goroutine (snd kv) gs) gs kvs)
  = tally f gs.
Proof.
  intros Hf. induction kvs as [|kv kvs IH]; simpl; [reflexivity|].
  rewrite tally_alter_cancel by exact Hf. exact IH.
Qed.

Lemma tally_probes f services :
  (forall svc, f (probe_of svc) = false) ->
  tally f (map probe_of services) = 0.
Proof.
  intros Hf. induction services as [|svc l IH]; simpl; [reflexivity|].
  rewrite Hf, IH. reflexivity.
Qed.

Lemma requested_cancel g : requested (cancel_goroutine g) = requested g.
Proof. destruct g as [| |svc c pc|]; reflexivity. Qed.

Lemma published_cancel g : published (cancel_goroutine g) = published g.
Proof. destruct g as [| |svc c pc|]; reflexivity. Qed.

(** [performHealthCheck] calls [Do] once if the URL parses and not at all
    if it does not; status and error go together. *)
Lemma performHealthCheck_request do c url st err evs :
  performHealthCheck do c url = ((st, err), evs) ->
  evs = match url_parse_error url with
        | None => [EvHttpDo "GET" url]
        | Some _ => []
        end /\
  well_formed st err.
Proof.
  unfold performHealthCheck, well_formed. intros H.
  destruct (url_parse_error url).
  - injection H as <- <- <-. split; [reflexivity|]. right.
    split; [auto | discriminate].
  - destruct do as [resp|e].
    + destruct ((200 <=? StatusCode resp) && (StatusCode resp <? 400));
        injection H as <- <- <-; split; try reflexivity.
      * left. split; reflexivity.
      * right. split; [auto | discriminate].
    + destruct (decide (c = Some DeadlineExceeded));
        injection H as <- <- <-; split; try reflexivity;
        right; (split; [auto | discriminate]).
Qed.

Ltac events_simpl :=
  repeat match goal with
  | Hp : performHealthCheck _ _ (service.URL ?svc) = _ |- _ =>
      destruct (performHealthCheck_request _ _ _ _ _ _ Hp) as [-> ?];
      clear Hp;
      destruct (url_parse_error (service.URL svc)) eqn:?
  end;
  unfold handleUpdate;
  repeat match goal with
  | |- context [match ?x with Some _ => _ | None => _ end] => destruct x
  end.

Ltac tally_simpl :=
  rewrite ?tally_app,
    ?(tally_fmap_cancel requested), ?(tally_fmap_cancel published),
    ?(tally_cancel_handles requested), ?(tally_cancel_handles published),
    ?(tally_probes requested), ?(tally_probes published)
    by first [exact requested_cancel | exact published_cancel
             | intros ?; reflexivity];
  repeat match goal with
  | Hl : goroutines _ !! _ = Some _ |- _ =>
      rewrite ?(tally_insert _ _ _ _ _ Hl); revert Hl
  end; intros.

Lemma Inv2_init intervalSeconds : Inv2 (init intervalSeconds).
Proof. split; simpl; try reflexivity; try constructor. lia. Qed.

Lemma step_capacity s l s' :
  Inv2 s -> step l s = Some s' ->
  (length (updates (mon s')) <= updates_capacity)%nat.
Proof.
  intros HI H. pose proof (inv_capacity _ HI) as Hcap.
  step_inversion H.
  all: sweep_simpl; step_simpl; try assumption.
  all: try (simpl in Hcap; lia).
  all: rewrite ?length_app; simpl.
  all: repeat match goal with
       | Hu : updates _ = _ |- _ => rewrite Hu in *; clear Hu
       end; simpl in *.
  all: unfold channel_has_room in *;
    repeat match goal with
    | Hr : (_ <? _)%nat = true |- _ => apply Nat.ltb_lt in Hr
    end; lia.
Qed.

Lemma step_requests s l s' :
  Inv2 s -> step l s = Some s' ->
  Z.of_nat (length (omap client_Do (trace s'))) =
    tally requested (goroutines s').
Proof.
  intros HI H. pose proof (inv_requests _ HI) as Hreq.
  step_inversion H.
  all: sweep_simpl; step_simpl; events_simpl.
  all: rewrite ?omap_app, ?length_app; simpl; tally_simpl; simpl.
  all: rewrite ?app_nil_r; simpl;
    repeat match goal with
    | He : url_parse_error _ = _ |- _ => rewrite ?He; clear He
    end; simpl; lia.
Qed.

Lemma step_sends s l s' :
  Inv2 s -> step l s = Some s' ->
  Z.of_nat (length (omap sent (trace s'))) <=
    tally published (goroutines s').
Proof.
  intros HI H. pose proof (inv_sends _ HI) as Hsent.
  step_inversion H.
  all: sweep_simpl; step_simpl; events_simpl.
  all: rewrite ?omap_app, ?length_app; simpl; tally_simpl; simpl.
  all: rewrite ?app_nil_r; simpl; lia.
Qed.

Lemma step_recorded s l s' :
  Inv2 s -> step l s = Some s' ->
  omap recorded (trace s') = record_of <$> omap handled (trace s').
Proof.
  intros HI H. pose proof (inv_recorded _ HI) as Hrec.
  step_inversion H.
  all: sweep_simpl; step_simpl; events_simpl.
  all: rewrite ?omap_app; simpl; rewrite ?app_nil_r; try assumption.
  all: rewrite ?fmap_app, Hrec; reflexivity.
Qed.

Lemma well_formed_cancel g :
  well_formed_goroutine g -> well_formed_goroutine (cancel_goroutine g).
Proof. destruct g as [| |svc c pc|]; simpl; auto. Qed.

Lemma well_formed_fmap_cancel gs :
  Forall well_formed_goroutine gs ->
  Forall well_formed_goroutine (cancel_goroutine <$> gs).
Proof.
  intros Hgs. apply Forall_fmap. eapply Forall_impl; [exact Hgs|].
  intros g Hg. apply well_formed_cancel. exact Hg.
Qed.

Lemma well_formed_cancel_handles (kvs : list (string * nat)) gs :
  Forall well_formed_goroutine gs ->
  Forall well_formed_goroutine
    (foldr (fun kv gs => alter cancel_goroutine (snd kv) gs) gs kvs).
Proof.
  intros Hgs. induction kvs as [|kv kvs IH]; simpl; [exact Hgs|].
  apply Forall_alter; [exact IH|]. intros g _. apply well_formed_cancel.
Qed.

Lemma well_formed_probes services :
  Forall well_formed_goroutine (map probe_of services).
Proof. induction services as [|svc l IH]; constructor; [exact I | exact IH]. Qed.

Lemma step_outcomes s l s' :
  Inv2 s -> step l s = Some s' ->
  Forall well_formed_update (omap sent (trace s')) /\
  Forall well_formed_goroutine (goroutines s').
Proof.
  intros HI H. pose proof (inv_outcomes _ HI) as Hout.
  pose proof (inv_publishing _ HI) as Hpub.
  step_inversion H.
  all: sweep_simpl; step_simpl.
  all: repeat match goal with
       | Hl : goroutines _ !! _ = Some _ |- _ =>
           pose proof (Forall_lookup_1 _ _ _ _ Hpub Hl); clear Hl
       | Hp : performHealthCheck _ _ _ = _ |- _ =>
           destruct (performHealthCheck_request _ _ _ _ _ _ Hp) as [-> ?];
           clear Hp
       end.
  all: unfold handleUpdate.
  all: repeat match goal with
       | |- context [match ?x with Some _ => _ | None => _ end] => destruct x
       end.
  all: rewrite ?omap_app; simpl; rewrite ?app_nil_r.
  all: split.
  all: repeat first
         [ assumption
         | apply Forall_app_2
         | apply Forall_insert
         | apply Forall_cons_2
         | apply Forall_nil_2
         | apply well_formed_fmap_cancel
         | apply well_formed_cancel_handles
         | apply well_formed_probes ].
  all: simpl in *; auto.
Qed.

Lemma Inv2_step s l s' : Inv2 s -> step l s = Some s' -> Inv2 s'.
Proof.
  intros HI H. destruct (step_outcomes _ _ _ HI H) as [Hout Hpub].
  split.
  - exact (step_capacity _ _ _ HI H).
  - exact (step_requests _ _ _ HI H).
  - exact (step_sends _ _ _ HI H).
  - exact (step_recorded _ _ _ HI H).
  - exact Hout.
  - exact Hpub.
Qed.

Lemma reachable_Inv2 s : reachable s -> Inv2 s.
Proof.
  induction 1 as [n | s l s' _ IH Hstep].
  - apply Inv2_init.
  - exact (Inv2_step _ _ _ IH Hstep).
Qed.


(** ** What the engine keeps and what it never does *)

(** X1.  The only panic the engine can reach is [time.NewTicker]'s on an
    interval that is not positive.  With a positive interval no reachable
    state is a crashed one and no step leads to one: no send on the
    closed channel, no second close, no negative wait group counter. *)
Theorem engine_panics_only_on_ticker (s : System) :
  reachable s ->
  (crashed s = true -> interval (mon s) <= 0) /\
  (0 < interval (mon s) ->
   crashed s = false /\
   forall l s', step l s = Some s' -> crashed s' = false).
Proof.
  intros Hs.
  assert (Hsafe : forall s0, reachable s0 -> 0 < interval (mon s0) ->
                             crashed s0 = false).
  { intros s0 Hs0 Hint. destruct (crashed s0) eqn:Hcr; [|reflexivity].
    pose proof (inv_crashed _ (reachable_Inv _ Hs0) Hcr). lia. }
  split; [exact (inv_crashed _ (reachable_Inv _ Hs))|].
  intros Hint. split; [exact (Hsafe _ Hs Hint)|].
  intros l s' Hstep. apply Hsafe; [exact (reachable_step _ _ _ Hs Hstep)|].
  rewrite (step_interval _ _ _ Hstep). exact Hint.
Qed.

(** X2.  The buffer of the channel never holds more than its capacity
    of 100 outcomes. *)
Theorem channel_within_capacity (s : System) :
  reachable s -> (length (updates (mon s)) <= 100)%nat.
Proof. intros Hs. exact (inv_capacity _ (reachable_Inv2 _ Hs)). Qed.

Lemma pending_count_none gs :
  (forall i g, gs !! i = Some g -> pending g = false) -> pending_count gs = 0.
Proof.
  induction gs as [|g gs IH]; intros Hall; simpl; [reflexivity|].
  rewrite (Hall 0%nat g eq_refl). rewrite IH; [reflexivity|].
  intros i g' Hg'. exact (Hall (S i) g' Hg').
Qed.

(** X3.  The counter of the wait group is, in every reachable state, the
    number of Scheduler loops, Aggregators and probes that have not yet
    finished: it is never negative, and it is zero exactly when all of
    them have returned. *)
Theorem wait_group_counts_unfinished (s : System) :
  reachable s ->
  wg (mon s) = pending_count (goroutines s) /\
  0 <= wg (mon s) /\
  (wg (mon s) = 0 <->
   forall i g, goroutines s !! i = Some g -> pending g = false).
Proof.
  intros Hs. pose proof (inv_wg _ (reachable_Inv _ Hs)) as Hwg.
  split; [exact Hwg|]. rewrite Hwg.
  split; [apply pending_count_nonneg|]. split.
  - intros Hz i g Hg. exact (pending_count_zero _ _ _ Hz Hg).
  - apply pending_count_none.
Qed.

Lemma registry_entry_live s id h :
  reachable s ->
  activeChecks (mon s) !! id = Some h ->
  exists svc c pc,
    goroutines s !! h = Some (GCheckService svc c pc) /\
    service.ID svc = id /\ holds_handle pc = true /\
    (stop_called (app s) = true -> ctx_done c = true).
Proof.
  intros Hs Hm. pose proof (reachable_Inv _ Hs) as HI.
  destruct (inv_registry _ HI _ _ Hm) as (g & Hg & Hk).
  destruct g as [| |svc c pc|]; try discriminate Hk. simpl in Hk.
  destruct (holds_handle pc) eqn:Hh; [|discriminate Hk].
  injection Hk as Hid. exists svc, c, pc. repeat split; try assumption.
  intros Hstop.
  apply (Forall_lookup_1 _ _ _ _ (inv_cascade _ HI) Hg (inv_root _ HI Hstop)).
  intros ->. discriminate Hh.
Qed.

(** X4.  The registry holds no stale handle: an entry under a service ID
    is the handle of a probe of that service that has registered and has
    not yet run its deferred delete; once Stop has been called the
    context behind every registered handle is done. *)
Theorem registry_holds_live_probes (s : System) (id : string) (h : nat) :
  reachable s ->
  activeChecks (mon s) !! id = Some h ->
  exists svc c pc,
    goroutines s !! h = Some (GCheckService svc c pc) /\
    service.ID svc = id /\ holds_handle pc = true /\
    (stop_called (app s) = true -> ctx_done c = true).
Proof. exact (registry_entry_live s id h). Qed.

(** X5.  The deferred delete removes whatever is registered under the
    service ID, not the probe's own handle: when a probe finishes while
    another probe of the same service ID is in flight, the other probe
    is left in flight with no handle in the registry. *)
Theorem finishing_probe_unregisters_its_twin (s : System) (i j : nat)
    (svc svc' : service.Service) (c c' : Context) (pc' : CheckPc) :
  reachable s -> crashed s = false ->
  goroutines s !! i = Some (GCheckService svc c ChkDeferDelete) ->
  goroutines s !! j = Some (GCheckService svc' c' pc') ->
  i <> j -> service.ID svc' = service.ID svc -> holds_handle pc' = true ->
  exists s',
    step (LGo i ActDeferDelete) s = Some s' /\
    goroutines s' !! j = Some (GCheckService svc' c' pc') /\
    forall id, activeChecks (mon s') !! id <> Some j.
Proof.
  intros Hs Hcr Hi Hj Hne Hid Hh. unfold step. rewrite Hcr, Hi. simpl.
  eexists. split; [reflexivity|]. simpl. split.
  - rewrite list_lookup_insert_ne by exact Hne. exact Hj.
  - intros id Hm. apply lookup_delete_Some in Hm. destruct Hm as [Hkey Hm].
    destruct (inv_registry _ (reachable_Inv _ Hs) _ _ Hm) as (g & Hg & Hk).
    rewrite Hj in Hg. injection Hg as <-. simpl in Hk. rewrite Hh in Hk.
    injection Hk as Hk. congruence.
Qed.

Lemma cancel_handles_fixed (kvs : list (string * nat))
    (gs : list Goroutine) :
  (forall h g, h ∈ kvs.*2 -> gs !! h = Some g -> cancel_goroutine g = g) ->
  foldr (fun kv gs => alter cancel_goroutine (snd kv) gs) gs kvs = gs.
Proof.
  induction kvs as [|[k h] kvs IH]; intros Hfix; simpl; [reflexivity|].
  rewrite IH by (intros h' g Hin; apply Hfix; right; exact Hin).
  apply list_eq. intros n. destruct (decide (h = n)) as [->|Hne].
  - rewrite list_lookup_alter_eq. destruct (gs !! n) as [g|] eqn:Hg;
      [|reflexivity]. simpl. f_equal. apply (Hfix n); [left|exact Hg].
  - apply list_lookup_alter_ne. exact Hne.
Qed.

(** X6.  The loop of Stop over the registry never changes anything:
    [m.cancel()] before it has already cancelled the context of every
    registered probe, so calling the registered handles is a no-op, and
    the step of the loop only moves Stop on to its wait. *)
Theorem stop_handle_loop_is_redundant (s : System) :
  reachable s -> stop_called (app s) = true ->
  goroutines (cancel_activeChecks s) = goroutines s /\
  (crashed s = false -> app s = AppStopCancelAll ->
   step LStopCancelAll s = Some (set_app AppStopWait s)).
Proof.
  intros Hs Hstop.
  assert (Hfix : goroutines (cancel_activeChecks s) = goroutines s).
  { unfold cancel_activeChecks. simpl. apply cancel_handles_fixed.
    intros h g Hin Hg. apply list_elem_of_fmap in Hin.
    destruct Hin as ([k h'] & -> & Hin). simpl in Hg.
    apply elem_of_map_to_list in Hin.
    destruct (registry_entry_live _ _ _ Hs Hin)
      as (svc & c & pc & Hg' & _ & _ & Hdone).
    rewrite Hg in Hg'. injection Hg' as ->. specialize (Hdone Hstop).
    simpl. destruct c; [reflexivity | discriminate Hdone]. }
  split; [exact Hfix|]. intros Hcr Ha. unfold step. rewrite Hcr, Ha.
  unfold Stop_cancelAll. f_equal.
  unfold cancel_activeChecks in *. simpl in Hfix. rewrite Hfix.
  destruct s; reflexivity.
Qed.

(** X7.  After Stop has returned the monitor does nothing more.  The
    only steps left are a client subscribing and the steps of the SSE
    handlers; the monitor's own goroutines take none; nothing is listed,
    requested, recorded, sent or logged; wait group, registry, root
    context and the closed flag stay as they are; the buffer can only
    lose its oldest outcome to a subscriber's handler. *)
Theorem after_stop_only_subscribers_move (s : System) (r : option error)
    (l : Label) (s' : System) :
  reachable s -> app s = AppStopReturned r -> step l s = Some s' ->
  (l = LSubscribe \/
   exists i a pc,
     l = LGo i a /\ goroutines s !! i = Some (GServiceUpdatesSSE pc)) /\
  List.filter monitor_event (trace s') = List.filter monitor_event (trace s) /\
  app s' = app s /\ wg (mon s') = wg (mon s) /\
  activeChecks (mon s') = activeChecks (mon s) /\
  ctx (mon s') = ctx (mon s) /\
  updates_closed (mon s') = updates_closed (mon s) /\
  (updates (mon s') = updates (mon s) \/
   exists u, updates (mon s) = u :: updates (mon s')).
Proof.
  intros Hs Ha H.
  assert (Hret : forall i g, goroutines s !! i = Some g -> pending g = false).
  { apply (waited_all_returned _ Hs). rewrite Ha. reflexivity. }
  step_inversion H.
  all: try congruence.
  all: try match goal with
       | Hl : goroutines _ !! _ = Some _ |- _ =>
           discriminate (Hret _ _ Hl)
       end.
  all: simpl; rewrite ?List.filter_app; simpl; rewrite ?app_nil_r.
  all: repeat split; try reflexivity; try assumption.
  all: first
         [ left; first [reflexivity | assumption]
         | right; eexists _, _, _; split; [reflexivity | eassumption]
         | right; eexists; first [eassumption | reflexivity] ].
Qed.


(** X9.  A probe calls [m.client.Do] at most once, and only with a
    request that could be built.  A call of [m.client.Do] returns in one
    place only: in the [performHealthCheck] of a probe that has registered
    and whose URL builds a request, as a GET of that URL; so the calls
    that have returned are as many as the probes past their health check
    whose URL builds a request.  The call is counted when it has
    returned: a call still in flight is not, nor are the requests one call
    sends when it follows redirects. *)
Theorem one_Do_call_per_probe (s : System) :
  reachable s ->
  Z.of_nat (length (omap client_Do (trace s))) =
    tally requested (goroutines s) /\
  forall l s',
    step l s = Some s' ->
    omap client_Do (trace s') = omap client_Do (trace s) \/
    exists i svc c do elapsed,
      l = LGo i (ActHealthCheck do elapsed) /\
      goroutines s !! i = Some (GCheckService svc c ChkInFlight) /\
      url_parse_error (service.URL svc) = None /\
      omap client_Do (trace s') =
        omap client_Do (trace s) ++ [("GET", service.URL svc)].
Proof.
  intros Hs. split; [exact (inv_requests _ (reachable_Inv2 _ Hs))|].
  intros l s' H. step_inversion H.
  all: sweep_simpl; step_simpl; events_simpl.
  all: unfold omap; rewrite ?omap_app; simpl; rewrite ?app_nil_r.
  all: first
         [ left; reflexivity
         | right; eexists _, _, _, _, _;
           repeat split; first [reflexivity | eassumption] ].
Qed.

(** X10.  A probe sends at most one outcome: the outcomes sent into the
    channel are never more than the probes that are past their publishing
    select. *)
Theorem one_outcome_per_probe (s : System) :
  reachable s ->
  Z.of_nat (length (omap sent (trace s))) <=
    tally published (goroutines s).
Proof. intros Hs. exact (inv_sends _ (reachable_Inv2 _ Hs)). Qed.

(** X11.  The calls of the repository's UpdateStatus are, in order, the
    outcomes the Aggregator has taken from the channel, each with its
    service ID, status and response time: one call per outcome handled,
    none for an outcome that was dropped or that a subscriber took. *)
Theorem recorded_mirror_handled (s : System) :
  reachable s ->
  omap recorded (trace s) = record_of <$> omap handled (trace s).
Proof. intros Hs. exact (inv_recorded _ (reachable_Inv2 _ Hs)). Qed.

Lemma Forall_received (P : ServiceUpdate -> Prop) tr :
  Forall P (omap received tr) ->
  Forall P (omap handled tr) /\ Forall P (omap delivered tr).
Proof.
  induction tr as [|e tr IH]; [split; constructor|].
  unfold omap in *. destruct e; simpl; try exact IH.
  - intros Hall. apply Forall_cons in Hall. destruct Hall as [Hu Hall].
    destruct (IH Hall) as [Hh Hd]. split; [constructor|]; assumption.
  - intros Hall. apply Forall_cons in Hall. destruct Hall as [Hu Hall].
    destruct (IH Hall) as [Hh Hd]. split; [|constructor]; assumption.
Qed.

(** X12.  Every outcome that enters the channel pairs its status and its
    error as the health check does: the status is one of the four
    constants, and the error is nil exactly for Healthy.  So it is for
    every outcome in the buffer, every outcome the Aggregator handles and
    every outcome written to a subscriber. *)
Theorem outcomes_well_formed (s : System) :
  reachable s ->
  Forall well_formed_update (omap sent (trace s)) /\
  Forall well_formed_update (updates (mon s)) /\
  Forall well_formed_update (omap handled (trace s)) /\
  Forall well_formed_update (omap delivered (trace s)).
Proof.
  intros Hs. pose proof (inv_outcomes _ (reachable_Inv2 _ Hs)) as Hsent.
  split; [exact Hsent|].
  rewrite (inv_channel _ (reachable_Inv _ Hs)) in Hsent.
  apply Forall_app in Hsent. destruct Hsent as [Hrecv Hbuf].
  split; [exact Hbuf|]. exact (Forall_received _ _ Hrecv).
Qed.

(** ** handlers.getStatusCounts *)

Lemma wrap64_small z :
  - 9223372036854775808 <= z < 9223372036854775808 -> wrap64 z = z.
Proof.
  intros Hz. unfold wrap64.
  change (2 ^ 63) with 9223372036854775808.
  change (2 ^ 64) with 18446744073709551616.
  rewrite Z.mod_small; lia.
Qed.

Lemma status_count_bounds k services :
  0 <= status_count k services <= Z.of_nat (length services).
Proof.
  induction services as [|svc l IH]; simpl; [lia|].
  destruct (String.eqb (service.Status_ svc) k); lia.
Qed.

Lemma classic_known k : known_status k \/ ~ known_status k.
Proof.
  unfold known_status.
  destruct (decide (k = service.StatusHealthy)); [tauto|].
  destruct (decide (k = service.StatusUnhealthy)); [tauto|].
  destruct (decide (k = service.StatusTimeout)); [tauto|].
  destruct (decide (k = service.StatusUnknown)); tauto.
Qed.

Lemma initial_counts_lookup k :
  (known_status k -> initial_counts !! k = Some 0) /\
  (~ known_status k -> initial_counts !! k = None).
Proof.
  unfold known_status, initial_counts, service.StatusHealthy,
    service.StatusUnhealthy, service.StatusTimeout, service.StatusUnknown.
  split.
  - intros [-> | [-> | [-> | ->]]]; reflexivity.
  - intros Hk. rewrite !lookup_insert_ne by (intros <-; tauto).
    apply lookup_empty.
Qed.

Lemma fold_count_status services :
  forall (acc : gmap string Z) k,
    0 <= default 0 (acc !! k) ->
    default 0 (acc !! k) + status_count k services < 2 ^ 63 ->
    default 0 (foldl count_status acc services !! k) =
      default 0 (acc !! k) + status_count k services /\
    (is_Some (foldl count_status acc services !! k) <->
     is_Some (acc !! k) \/ 0 < status_count k services).
Proof.
  change (2 ^ 63) with 9223372036854775808.
  induction services as [|svc l IH]; intros acc k Hlo Hhi; simpl in *.
  - split; [lia|]. split; [auto | intros [Hs|Hz]; [exact Hs | lia]].
  - pose proof (status_count_bounds k l) as Hb.
    destruct (String.eqb_spec (service.Status_ svc) k) as [Heq|Hne].
    + assert (Hacc : count_status acc svc !! k =
                       Some (default 0 (acc !! k) + 1)).
      { unfold count_status, service.String. cbv zeta.
        rewrite Heq, lookup_insert_eq.
        rewrite wrap64_small by lia. reflexivity. }
      pose proof (IH (count_status acc svc) k) as IH'.
      rewrite Hacc in IH'. simpl in IH'.
      destruct IH' as [Hval Hsome]; [lia | lia |].
      split; [lia|]. split; [intros _; right; lia|].
      intros _. apply Hsome. left. eexists. reflexivity.
    + assert (Hacc : count_status acc svc !! k = acc !! k).
      { unfold count_status, service.String. cbv zeta.
        apply lookup_insert_ne. exact Hne. }
      pose proof (IH (count_status acc svc) k) as IH'.
      rewrite Hacc in IH'.
      destruct IH' as [Hval Hsome]; [lia | lia |]. split; [lia|].
      rewrite Hsome. split; (intros [Hs|Hz]; [left; exact Hs | right; lia]).
Qed.

Lemma counts_lookup (services : list service.Service)
    (k : string) :
  Z.of_nat (length services) < 2 ^ 63 ->
  (exists counts,
      getStatusCounts (inl services) = (Some counts, None) /\
      (known_status k \/ 0 < status_count k services ->
       counts !! k = Some (status_count k services)) /\
      (~ known_status k -> status_count k services = 0 ->
       counts !! k = None)) /\
  (forall err, getStatusCounts (inr err) = (None, Some err)).
Proof.
  intros Hlen. split; [|reflexivity].
  eexists. split; [reflexivity|].
  pose proof (status_count_bounds k services) as Hb.
  pose proof (fold_count_status services initial_counts k) as Hfold.
  change (2 ^ 63) with 9223372036854775808 in *.
  destruct (initial_counts_lookup k) as [Hknown Hother].
  assert (Hzero : default 0 (initial_counts !! k) = 0).
  { destruct (classic_known k) as [Hk|Hk];
      [rewrite (Hknown Hk) | rewrite (Hother Hk)]; reflexivity. }
  destruct Hfold as [Hval Hsome]; rewrite ?Hzero; try lia.
  rewrite Hzero in Hval. split.
  - intros Hk.
    assert (Hs : is_Some (foldl count_status initial_counts services !! k)).
    { apply Hsome. destruct Hk as [Hk|Hk]; [left|right; exact Hk].
      rewrite (Hknown Hk). eexists. reflexivity. }
    destruct Hs as [z Hz]. rewrite Hz in Hval |- *. simpl in Hval.
    f_equal. lia.
  - intros Hk Hz.
    destruct (foldl count_status initial_counts services !! k) eqn:Hl;
      [|reflexivity].
    assert (Hs : is_Some (initial_counts !! k) \/
                 0 < status_count k services)
      by (apply Hsome; eexists; reflexivity).
    destruct Hs as [[z0 Hs]|Hs]; [|lia].
    rewrite (Hother Hk) in Hs. discriminate Hs.
Qed.

(** X13.  [getStatusCounts] counts the services by status.  Under each of
    the four statuses of the map literal, and under every other status
    that occurs, stands the number of services with that status; a
    status that is neither has no entry.  A failed listing gives the
    error and no map. *)
Theorem getStatusCounts_counts (services : list service.Service)
    (k : string) :
  Z.of_nat (length services) < 2 ^ 63 ->
  (exists counts,
      getStatusCounts (inl services) = (Some counts, None) /\
      (known_status k \/ 0 < status_count k services ->
       counts !! k = Some (status_count k services)) /\
      (~ known_status k -> status_count k services = 0 ->
       counts !! k = None)) /\
  (forall err, getStatusCounts (inr err) = (None, Some err)).
Proof. exact (counts_lookup services k). Qed.

Lemma status_count_partition services :
  Forall (fun svc => known_status (service.Status_ svc)) services ->
  status_count "healthy" services + status_count "unhealthy" services
  + status_count "timeout" services + status_count "unknown" services
  = Z.of_nat (length services).
Proof.
  induction 1 as [|svc l Hk _ IH]; [reflexivity|].
  cbn [status_count length]. rewrite Nat2Z.inj_succ.
  destruct Hk as [-> | [-> | [-> | ->]]]; simpl; lia.
Qed.

Lemma status_count_absent k services :
  Forall (fun svc => known_status (service.Status_ svc)) services ->
  ~ known_status k -> status_count k services = 0.
Proof.
  intros Hall Hk. induction Hall as [|svc l Hsvc _ IH]; [reflexivity|].
  simpl. destruct (String.eqb_spec (service.Status_ svc) k) as [Heq|_];
    [|lia]. rewrite Heq in Hsvc. contradiction.
Qed.

(** X14.  When every listed service has one of the four statuses, the
    map of [getStatusCounts] has exactly the four keys of its literal,
    and the four counts add up to the number of services listed. *)
Theorem getStatusCounts_total (services : list service.Service) :
  Z.of_nat (length services) < 2 ^ 63 ->
  Forall (fun svc => known_status (service.Status_ svc)) services ->
  exists counts healthy unhealthy timeout unknown,
    getStatusCounts (inl services) = (Some counts, None) /\
    counts !! "healthy" = Some healthy /\
    counts !! "unhealthy" = Some unhealthy /\
    counts !! "timeout" = Some timeout /\
    counts !! "unknown" = Some unknown /\
    healthy + unhealthy + timeout + unknown = Z.of_nat (length services) /\
    forall k, is_Some (counts !! k) <-> known_status k.
Proof.
  intros Hlen Hall.
  assert (Hat : forall k,
            (known_status k ->
             foldl count_status initial_counts services !! k =
               Some (status_count k services)) /\
            (~ known_status k ->
             foldl count_status initial_counts services !! k = None)).
  { intros k.
    destruct (proj1 (counts_lookup services k Hlen))
      as (counts & Heq & Hin & Hout).
    injection Heq as <-. split.
    - intros Hk. apply Hin. left. exact Hk.
    - intros Hk. apply Hout; [exact Hk|].
      exact (status_count_absent _ _ Hall Hk). }
  exists (foldl count_status initial_counts services),
    (status_count "healthy" services), (status_count "unhealthy" services),
    (status_count "timeout" services), (status_count "unknown" services).
  split; [reflexivity|].
  split; [apply Hat; left; reflexivity|].
  split; [apply Hat; right; left; reflexivity|].
  split; [apply Hat; right; right; left; reflexivity|].
  split; [apply Hat; right; right; right; reflexivity|].
  split; [exact (status_count_partition _ Hall)|].
  intros k. split.
  - intros Hs. destruct (classic_known k) as [Hk|Hk]; [exact Hk|].
    rewrite (proj2 (Hat k) Hk) in Hs. destruct Hs as [z Hz]. discriminate Hz.
  - intros Hk. rewrite (proj1 (Hat k) Hk). eexists. reflexivity.
Qed.

(** ** The interval of the Scheduler *)

(** X15.  For a number of seconds within ±9223372036, [New] stores it as
    exactly that many nanoseconds, without overflow; so the interval is
    positive exactly when the number of seconds is.  A Scheduler loop
    entered with that interval makes its first sweep when the seconds are
    positive and panics, in [time.NewTicker], when they are not. *)
Theorem New_interval (intervalSeconds : Z) :
  - 9223372036 <= intervalSeconds <= 9223372036 ->
  interval (New intervalSeconds) = intervalSeconds * 1000000000 /\
  (0 < interval (New intervalSeconds) <-> 0 < intervalSeconds) /\
  forall s i res,
    crashed s = false ->
    interval (mon s) = interval (New intervalSeconds) ->
    goroutines s !! i = Some (GMonitorLoop LoopInitial) ->
    exists s',
      step (LGo i (ActSweep res)) s = Some s' /\
      (crashed s' = true <-> intervalSeconds <= 0) /\
      (0 < intervalSeconds ->
       goroutines s' !! i = Some (GMonitorLoop LoopSelect)).
Proof.
  intros Hn.
  assert (Hint : interval (New intervalSeconds) = intervalSeconds * 1000000000).
  { simpl. apply wrap64_small. lia. }
  split; [exact Hint|]. split; [rewrite Hint; lia|].
  intros s i res Hcr Heq Hg. unfold step. rewrite Hcr, Hg. simpl.
  rewrite Heq, Hint.
  destruct (Z.leb_spec (intervalSeconds * 1000000000) 0) as [Hle|Hgt].
  - eexists. split; [reflexivity|]. simpl.
    split; [split; [intros _; lia | reflexivity]|]. intros Hpos. lia.
  - eexists. split; [reflexivity|]. sweep_simpl. simpl. rewrite Hcr.
    split; [split; [discriminate | lia]|]. intros _.
    apply lookup_app_l_Some. apply list_lookup_insert_eq.
    eapply lookup_lt_Some. exact Hg.
Qed.

(** ** The template function statusClass *)

(** X16.  The CSS class the templates pick agrees with the statuses of
    the domain package: for each of the four statuses, and so for every
    status a health check returns, the class is "status-" followed by the
    status; every other string gets "status-unknown". *)
Theorem statusClass_agrees (status : string) :
  (known_status status ->
   statusClass status = String.append "status-" status) /\
  (~ known_status status -> statusClass status = "status-unknown") /\
  (forall do ctx url,
     statusClass (fst (fst (performHealthCheck do ctx url))) =
       String.append "status-" (fst (fst (performHealthCheck do ctx url)))).
Proof.
  assert (Hknown : forall st, known_status st ->
            statusClass st = String.append "status-" st).
  { intros st [-> | [-> | [-> | ->]]]; reflexivity. }
  split; [exact (Hknown status)|]. split.
  - intros Hk. unfold statusClass, known_status in *.
    unfold service.StatusHealthy, service.StatusUnhealthy,
      service.StatusTimeout, service.StatusUnknown in Hk.
    destruct (String.eqb_spec status "healthy"); [tauto|].
    destruct (String.eqb_spec status "unhealthy"); [tauto|].
    destruct (String.eqb_spec status "timeout"); [tauto|]. reflexivity.
  - intros do ctx url. apply Hknown.
    destruct (performHealthCheck do ctx url) as [[st err] evs] eqn:Hp.
    destruct (performHealthCheck_request _ _ _ _ _ _ Hp) as [_ Hwf].
    simpl. unfold well_formed in Hwf. unfold known_status. tauto.
Qed.

End Properties.

(** * Concrete runs *)

Lemma demo_run_reachable ls : @reachable demo_url_parse_error (demo_run ls).
Proof.
  unfold demo_run.
  destruct (@run demo_url_parse_error ls (init 30)) as [s|] eqn:Hrun; simpl.
  - exact (reachable_run _ _ _ (reachable_init 30) Hrun).
  - apply reachable_init.
Qed.

Lemma check_classifies_response_witness :
  demo_url_parse_error "http://a" = None /\
  let status :=
    fst (fst (@performHealthCheck demo_url_parse_error
                (inl {| StatusCode := 204 |}) None "http://a")) in
  (status = service.StatusHealthy <-> 200 <= 204 < 400) /\
  (~ 200 <= 204 < 400 -> status = service.StatusUnhealthy).
Proof.
  split; [reflexivity|].
  apply (@check_classifies_response demo_url_parse_error "http://a" None 204).
  reflexivity.
Defined.

Lemma check_timeout_iff_deadline_witness :
  fst (fst (@performHealthCheck demo_url_parse_error
              (inr (errors_New "context deadline exceeded"))
              (Some DeadlineExceeded) "http://a"))
  = service.StatusTimeout.
Proof.
  apply (proj1 (@check_timeout_iff_deadline demo_url_parse_error
                  (inr (errors_New "context deadline exceeded"))
                  (Some DeadlineExceeded) "http://a")).
  split; [reflexivity|]. split; [eexists; reflexivity | reflexivity].
Defined.

Lemma check_unbuildable_request_witness :
  let s := demo_run demo_malformed in
  let unknown :=
    Some (fmt_Errorf_w "failed to create request: %w"
            (errors_New "missing protocol scheme")) in
  demo_url_parse_error ":foo" =
    Some (errors_New "missing protocol scheme") /\
  @performHealthCheck demo_url_parse_error (inl {| StatusCode := 200 |})
    None ":foo" = ((service.StatusUnknown, unknown), []) /\
  crashed s = false /\
  goroutines s !! 2%nat =
    Some (GCheckService (demo_service "m" ":foo") None ChkInFlight) /\
  exists s',
    @step demo_url_parse_error
      (LGo 2 (ActHealthCheck (inl {| StatusCode := 200 |}) 3)) s = Some s' /\
    goroutines s' =
      <[2%nat := GCheckService (demo_service "m" ":foo") None
                   (ChkPublish service.StatusUnknown unknown 3)]>
        (goroutines s) /\
    trace s' = trace s /\ crashed s' = false.
Proof.
  cbv zeta.
  destruct (@check_unbuildable_request demo_url_parse_error ":foo"
              (errors_New "missing protocol scheme") eq_refl)
    as [Hcheck Hstep].
  split; [reflexivity|]. split; [apply Hcheck|].
  split; [reflexivity|]. split; [reflexivity|].
  destruct (Hstep (demo_run demo_malformed) 2%nat (demo_service "m" ":foo")
              None (inl {| StatusCode := 200 |}) 3 eq_refl eq_refl eq_refl)
    as (s' & Hs' & Hgs & _ & _ & Htrace & Hcr).
  exists s'. repeat split; assumption.
Defined.



(** C4, the claim as stated fails: the outcome the probe put into the
    channel is taken by a subscriber's SSE handler; the Aggregator never
    sees it. *)
Lemma outcome_taken_by_subscriber :
  let s := demo_run demo_subscriber_takes in
  @run demo_url_parse_error demo_subscriber_takes (init 30) = Some s /\
  omap sent (trace s) = [demo_update] /\
  omap receiver (trace s) = [BySubscriber] /\
  omap delivered (trace s) = [demo_update] /\
  omap handled (trace s) = [] /\
  updates (mon s) = [].
Proof. vm_compute. repeat split. Qed.

Lemma channel_delivers_each_once_witness :
  let s := demo_run demo_subscriber_takes in
  @reachable demo_url_parse_error s /\
  omap sent (trace s) = omap received (trace s) ++ updates (mon s).
Proof.
  cbv zeta. split; [apply demo_run_reachable|].
  apply (proj1 (@channel_delivers_each_once demo_url_parse_error
                  (demo_run demo_subscriber_takes)
                  (demo_run_reachable demo_subscriber_takes))).
Defined.

Lemma publish_never_blocks_witness :
  let s := demo_run demo_full in
  @reachable demo_url_parse_error s /\
  crashed s = false /\
  goroutines s !! 102%nat =
    Some (GCheckService (demo_service "a" "http://a") None
            (ChkPublish service.StatusHealthy None 12)) /\
  length (updates (mon s)) = updates_capacity /\
  ctx_done (ctx (mon s)) = false /\
  exists s' s'',
    @step demo_url_parse_error (LGo 102 (ActPublish 5 SelDefault)) s
      = Some s' /\
    crashed s' = false /\
    updates (mon s') = updates (mon s) /\
    omap sent (trace s') = omap sent (trace s) /\
    trace s' = trace s ++ [EvLog (LogChannelFull "a")] /\
    @step demo_url_parse_error (LGo 102 ActDeferDelete) s' = Some s'' /\
    activeChecks (mon s'') !! "a" = None.
Proof.
  cbv zeta.
  assert (Hcr : crashed (demo_run demo_full) = false)
    by (vm_compute; reflexivity).
  assert (Hg : goroutines (demo_run demo_full) !! 102%nat =
               Some (GCheckService (demo_service "a" "http://a") None
                       (ChkPublish service.StatusHealthy None 12)))
    by (vm_compute; reflexivity).
  assert (Hlen : length (updates (mon (demo_run demo_full)))
                 = updates_capacity)
    by (vm_compute; reflexivity).
  assert (Hlive : ctx_done (ctx (mon (demo_run demo_full))) = false)
    by (vm_compute; reflexivity).
  destruct (@publish_never_blocks demo_url_parse_error
              (demo_run demo_full) 102 (demo_service "a" "http://a")
              None service.StatusHealthy None 12
              (demo_run_reachable demo_full) Hcr Hg)
    as (Hcan & Hany & _).
  destruct (Hcan 5) as (sel & s' & Hstep & Hcr').
  destruct (Hany 5 sel s' Hstep) as (_ & Hfull & s'' & Hdel & Hgone & _).
  assert (Hle : (updates_capacity
                 <= length (updates (mon (demo_run demo_full))))%nat)
    by (rewrite Hlen; apply Nat.le_refl).
  destruct (Hfull Hle) as (_ & Hupd & _ & _ & Hsent & Hcase).
  split; [apply demo_run_reachable|].
  split; [exact Hcr|]. split; [exact Hg|]. split; [exact Hlen|].
  split; [exact Hlive|].
  destruct Hcase as [(Hsel & _ & Htrace) | (_ & Hdone & _)].
  - rewrite Hsel in Hstep.
    exists s', s''. repeat split; assumption.
  - rewrite Hlive in Hdone. discriminate Hdone.
Defined.

Lemma stop_shutdown_order_witness :
  let s := demo_uncancelled in
  let t := demo_run demo_stop_called in
  let probe c :=
    GCheckService (demo_service "a" "http://a") c
      (ChkPublish service.StatusHealthy None 12) in
  crashed s = false /\ app s = AppStopCancelAll /\
  activeChecks (mon s) !! "a" = Some 2%nat /\
  goroutines s !! 2%nat = Some (probe None) /\
  (exists s',
     @step demo_url_parse_error LStopCancelAll s = Some s' /\
     app s' = AppStopWait /\
     goroutines s' !! 2%nat = Some (probe (Some Canceled)) /\
     goroutines s' !! 1%nat = goroutines s !! 1%nat) /\
  @reachable demo_url_parse_error t /\
  stop_called (app t) = true /\
  ctx (mon t) = Some Canceled.
Proof.
  cbv zeta.
  split; [reflexivity|]. split; [reflexivity|]. split; [reflexivity|].
  split; [reflexivity|]. split.
  - destruct (proj1 (@stop_shutdown_order demo_url_parse_error
                       demo_uncancelled) eq_refl eq_refl)
      as (s' & Hstep & Happ & _ & _ & _ & Hcalled & Hothers).
    exists s'. split; [exact Hstep|]. split; [exact Happ|]. split.
    + exact (Hcalled "a" 2%nat _ eq_refl eq_refl).
    + apply Hothers. intros id Hid.
      assert (Hreg : registered (goroutines demo_uncancelled) 1 id).
      { apply (inv_registry _ (@reachable_Inv demo_url_parse_error _
                                 (demo_run_reachable demo_checked))).
        exact Hid. }
      destruct Hreg as (g & Hg & Hk). vm_compute in Hg.
      injection Hg as <-. discriminate Hk.
  - split; [apply demo_run_reachable|]. split; [reflexivity|].
    destruct (proj2 (@stop_shutdown_order demo_url_parse_error
                       (demo_run demo_stop_called))
                (demo_run_reachable demo_stop_called))
      as (_ & _ & Hsignal & _).
    exact (proj1 (Hsignal eq_refl)).
Defined.

(** C7, the claim as stated fails: Stop has cancelled the root context,
    the channel is open and holds the probe's outcome, and the Aggregator
    returns. *)
Lemma aggregator_exits_on_open_channel :
  let s := demo_run demo_stop_called in
  let s' := demo_run (demo_stop_called ++ [LGo 1 ActAggDone]) in
  @reachable demo_url_parse_error s /\
  @step demo_url_parse_error (LGo 1 ActAggDone) s = Some s' /\
  goroutines s !! 1%nat = Some (GProcessUpdates AggSelect) /\
  goroutines s' !! 1%nat = Some (GProcessUpdates AggReturned) /\
  updates_closed (mon s) = false /\
  updates (mon s) = [demo_update] /\
  updates_closed (mon s') = false /\
  updates (mon s') = [demo_update].
Proof.
  cbv zeta. split; [apply demo_run_reachable|]. vm_compute. repeat split.
Qed.

Lemma aggregator_exit_witness :
  let s := demo_run demo_stop_called in
  let s' := demo_run (demo_stop_called ++ [LGo 1 ActAggDone]) in
  @step demo_url_parse_error (LGo 1 ActAggDone) s = Some s' /\
  goroutines s !! 1%nat = Some (GProcessUpdates AggSelect) /\
  goroutines s' !! 1%nat = Some (GProcessUpdates AggReturned) /\
  (ctx_done (ctx (mon s)) = true \/
   (updates_closed (mon s) = true /\ updates (mon s) = [])).
Proof.
  cbv zeta.
  assert (Hstep : @step demo_url_parse_error (LGo 1 ActAggDone)
                    (demo_run demo_stop_called)
                  = Some (demo_run (demo_stop_called ++ [LGo 1 ActAggDone])))
    by (vm_compute; reflexivity).
  split; [exact Hstep|]. split; [reflexivity|]. split; [reflexivity|].
  exact (proj1 (@aggregator_exit demo_url_parse_error _ _ _ 1%nat Hstep
                  eq_refl eq_refl)).
Defined.

Lemma scheduler_sweeps_witness :
  let s := demo_run [LStart] in
  crashed s = false /\ 0 < interval (mon s) /\
  goroutines s !! 0%nat = Some (GMonitorLoop LoopInitial) /\
  LoopInitial <> LoopReturned /\
  exists s',
    @step demo_url_parse_error
      (LGo 0 (ActSweep (inl [demo_service "a" "http://a";
                             demo_service "b" "http://b"]))) s = Some s' /\
    launched s s' = [probe_of (demo_service "a" "http://a");
                     probe_of (demo_service "b" "http://b")].
Proof.
  cbv zeta.
  assert (Hint : 0 < interval (mon (demo_run [LStart])))
    by (vm_compute; reflexivity).
  split; [reflexivity|]. split; [exact Hint|]. split; [reflexivity|].
  split; [discriminate|].
  destruct (proj1 (@scheduler_sweeps demo_url_parse_error
                     (demo_run [LStart]) 0 LoopInitial eq_refl Hint eq_refl
                     ltac:(discriminate))
              (inl [demo_service "a" "http://a";
                    demo_service "b" "http://b"]))
    as (s' & Hstep & Hlaunched & _).
  exists s'. split; assumption.
Defined.

Lemma lifecycle_never_fails_witness :
  snd (Start (init 30)) = None /\
  exists ls s',
    @run demo_url_parse_error ls (demo_run demo_published) = Some s' /\
    app s' = AppStopReturned None.
Proof.
  destruct (@lifecycle_never_fails demo_url_parse_error)
    as (Hstart & _ & _ & Hstop).
  split; [exact (proj1 (Hstart (init 30)))|].
  destruct (Hstop (demo_run demo_published)
              (demo_run_reachable demo_published) eq_refl
              ltac:(vm_compute; reflexivity))
    as (ls & s' & Hrun & Happ & _).
  exists ls, s'. split; assumption.
Defined.

(** * Concrete runs for the further properties *)

Lemma engine_panics_only_on_ticker_witness :
  let s := demo_run demo_published in
  @reachable demo_url_parse_error s /\
  0 < interval (mon s) /\ crashed s = false.
Proof.
  cbv zeta.
  assert (Hint : 0 < interval (mon (demo_run demo_published)))
    by (vm_compute; reflexivity).
  split; [apply demo_run_reachable|]. split; [exact Hint|].
  exact (proj1 (proj2 (@engine_panics_only_on_ticker demo_url_parse_error _
                         (demo_run_reachable demo_published)) Hint)).
Defined.

Lemma channel_within_capacity_witness :
  let s := demo_run demo_published in
  @reachable demo_url_parse_error s /\
  (length (updates (mon s)) <= 100)%nat.
Proof.
  cbv zeta. split; [apply demo_run_reachable|].
  exact (@channel_within_capacity demo_url_parse_error _
           (demo_run_reachable demo_published)).
Defined.

Lemma wait_group_counts_unfinished_witness :
  let s := demo_run demo_published in
  @reachable demo_url_parse_error s /\
  wg (mon s) = pending_count (goroutines s) /\ 0 <= wg (mon s).
Proof.
  cbv zeta. split; [apply demo_run_reachable|].
  destruct (@wait_group_counts_unfinished demo_url_parse_error _
              (demo_run_reachable demo_published)) as (Hwg & Hpos & _).
  split; assumption.
Defined.

Lemma registry_holds_live_probes_witness :
  let s := demo_run demo_checked in
  @reachable demo_url_parse_error s /\
  activeChecks (mon s) !! "a" = Some 2%nat /\
  exists svc c pc,
    goroutines s !! 2%nat = Some (GCheckService svc c pc) /\
    service.ID svc = "a" /\ holds_handle pc = true.
Proof.
  cbv zeta. split; [apply demo_run_reachable|]. split; [reflexivity|].
  destruct (@registry_holds_live_probes demo_url_parse_error
              (demo_run demo_checked) "a" 2
              (demo_run_reachable demo_checked) eq_refl)
    as (svc & c & pc & Hg & Hid & Hh & _).
  exists svc, c, pc. repeat split; assumption.
Defined.

Lemma finishing_probe_unregisters_its_twin_witness :
  let s := demo_run demo_overlap in
  @reachable demo_url_parse_error s /\
  crashed s = false /\
  goroutines s !! 2%nat =
    Some (GCheckService (demo_service "a" "http://a") None ChkDeferDelete) /\
  goroutines s !! 3%nat =
    Some (GCheckService (demo_service "a" "http://a") None ChkInFlight) /\
  activeChecks (mon s) !! "a" = Some 3%nat /\
  exists s',
    @step demo_url_parse_error (LGo 2 ActDeferDelete) s = Some s' /\
    goroutines s' !! 3%nat =
      Some (GCheckService (demo_service "a" "http://a") None ChkInFlight) /\
    forall id, activeChecks (mon s') !! id <> Some 3%nat.
Proof.
  cbv zeta. split; [apply demo_run_reachable|].
  split; [reflexivity|]. split; [reflexivity|]. split; [reflexivity|].
  split; [reflexivity|].
  apply (@finishing_probe_unregisters_its_twin demo_url_parse_error
           (demo_run demo_overlap) 2 3 (demo_service "a" "http://a")
           (demo_service "a" "http://a") None None ChkInFlight
           (demo_run_reachable demo_overlap) eq_refl eq_refl eq_refl);
    [discriminate | reflexivity | reflexivity].
Defined.

Lemma stop_handle_loop_is_redundant_witness :
  let s := demo_run demo_stop_called in
  @reachable demo_url_parse_error s /\
  stop_called (app s) = true /\
  goroutines (cancel_activeChecks s) = goroutines s.
Proof.
  cbv zeta. split; [apply demo_run_reachable|]. split; [reflexivity|].
  exact (proj1 (@stop_handle_loop_is_redundant demo_url_parse_error _
                  (demo_run_reachable demo_stop_called) eq_refl)).
Defined.

Lemma after_stop_only_subscribers_move_witness :
  let s := demo_run demo_stopped in
  let s' := demo_run (demo_stopped ++ [LGo 3 ActSseRecv]) in
  @reachable demo_url_parse_error s /\
  app s = AppStopReturned None /\
  @step demo_url_parse_error (LGo 3 ActSseRecv) s = Some s' /\
  List.filter monitor_event (trace s') = List.filter monitor_event (trace s) /\
  wg (mon s') = wg (mon s).
Proof.
  cbv zeta.
  assert (Hstep : @step demo_url_parse_error (LGo 3 ActSseRecv)
                    (demo_run demo_stopped)
                  = Some (demo_run (demo_stopped ++ [LGo 3 ActSseRecv])))
    by (vm_compute; reflexivity).
  split; [apply demo_run_reachable|]. split; [reflexivity|].
  split; [exact Hstep|].
  destruct (@after_stop_only_subscribers_move demo_url_parse_error _ None _ _
              (demo_run_reachable demo_stopped) eq_refl Hstep)
    as (_ & Htrace & _ & Hwg & _).
  split; assumption.
Defined.


Lemma one_Do_call_per_probe_witness :
  let s := demo_run demo_overlap in
  @reachable demo_url_parse_error s /\
  omap client_Do (trace s) = [("GET", "http://a")] /\
  Z.of_nat (length (omap client_Do (trace s))) =
    @tally (@requested demo_url_parse_error) (goroutines s).
Proof.
  cbv zeta. split; [apply demo_run_reachable|]. split; [reflexivity|].
  exact (proj1 (@one_Do_call_per_probe demo_url_parse_error _
                  (demo_run_reachable demo_overlap))).
Defined.

Lemma one_outcome_per_probe_witness :
  let s := demo_run demo_overlap in
  @reachable demo_url_parse_error s /\
  Z.of_nat (length (omap sent (trace s))) <= tally published (goroutines s).
Proof.
  cbv zeta. split; [apply demo_run_reachable|].
  exact (@one_outcome_per_probe demo_url_parse_error _
           (demo_run_reachable demo_overlap)).
Defined.

Lemma recorded_mirror_handled_witness :
  let s := demo_run demo_write_fails in
  @reachable demo_url_parse_error s /\
  omap recorded (trace s) = record_of <$> omap handled (trace s).
Proof.
  cbv zeta. split; [apply demo_run_reachable|].
  exact (@recorded_mirror_handled demo_url_parse_error _
           (demo_run_reachable demo_write_fails)).
Defined.

Lemma outcomes_well_formed_witness :
  let s := demo_run demo_published in
  @reachable demo_url_parse_error s /\
  Forall well_formed_update (updates (mon s)).
Proof.
  cbv zeta. split; [apply demo_run_reachable|].
  exact (proj1 (proj2 (@outcomes_well_formed demo_url_parse_error _
                         (demo_run_reachable demo_published)))).
Defined.

Lemma getStatusCounts_counts_witness :
  let services := [demo_service "a" "http://a"; demo_service "b" "http://b"] in
  Z.of_nat (length services) < 2 ^ 63 /\
  exists counts,
    getStatusCounts (inl services) = (Some counts, None) /\
    counts !! "unknown" = Some 2 /\ counts !! "healthy" = Some 0.
Proof.
  cbv zeta. split; [reflexivity|].
  exists (foldl count_status initial_counts
            [demo_service "a" "http://a"; demo_service "b" "http://b"]).
  split; [reflexivity|]. split.
  - destruct (proj1 (getStatusCounts_counts
                       [demo_service "a" "http://a";
                        demo_service "b" "http://b"] "unknown" eq_refl))
      as (counts & Heq & Hin & _).
    injection Heq as <-. apply Hin. left. unfold known_status. tauto.
  - destruct (proj1 (getStatusCounts_counts
                       [demo_service "a" "http://a";
                        demo_service "b" "http://b"] "healthy" eq_refl))
      as (counts & Heq & Hin & _).
    injection Heq as <-. apply Hin. left. unfold known_status. tauto.
Defined.

Lemma getStatusCounts_total_witness :
  let services := [demo_service "a" "http://a"; demo_service "b" "http://b"] in
  Z.of_nat (length services) < 2 ^ 63 /\
  Forall (fun svc => known_status (service.Status_ svc)) services /\
  exists counts healthy unhealthy timeout unknown,
    getStatusCounts (inl services) = (Some counts, None) /\
    counts !! "healthy" = Some healthy /\
    counts !! "unhealthy" = Some unhealthy /\
    counts !! "timeout" = Some timeout /\
    counts !! "unknown" = Some unknown /\
    healthy + unhealthy + timeout + unknown = 2.
Proof.
  cbv zeta.
  assert (Hall : Forall (fun svc => known_status (service.Status_ svc))
                   [demo_service "a" "http://a"; demo_service "b" "http://b"]).
  { repeat constructor; unfold known_status; simpl; tauto. }
  split; [reflexivity|]. split; [exact Hall|].
  destruct (getStatusCounts_total
              [demo_service "a" "http://a"; demo_service "b" "http://b"]
              eq_refl Hall)
    as (counts & h & u & t & k & Heq & Hh & Hu & Ht & Hk & Hsum & _).
  exists counts, h, u, t, k. repeat split; assumption.
Defined.

Lemma New_interval_witness :
  - 9223372036 <= 30 <= 9223372036 /\
  interval (New 30) = 30 * 1000000000.
Proof.
  assert (Hrange : - 9223372036 <= 30 <= 9223372036) by lia.
  split; [exact Hrange|].
  exact (proj1 (@New_interval demo_url_parse_error 30 Hrange)).
Defined.

Lemma statusClass_agrees_witness :
  known_status "timeout" /\ statusClass "timeout" = "status-timeout".
Proof.
  assert (Hk : known_status "timeout") by (unfold known_status; tauto).
  split; [exact Hk|].
  exact (proj1 (@statusClass_agrees demo_url_parse_error "timeout") Hk).
Defined.
